(** * xv6 [x86.h]: instruction primitives and the trap frame

    A shallow embedding of the inline-assembly routines of [x86.h] over a
    small model of the 32-bit x86 machine state, and of [struct trapframe]
    over the i386 struct layout rules.

    Integers are [Z] with the wrap-around of the C types and of the
    32-bit registers written out.  Memory is byte addressed over the
    4 GiB flat address space. *)

From Stdlib Require Import ZArith List String Bool Lia.
Import ListNotations.
Local Open Scope Z_scope.

(** ** C scalar types *)

Module CTypes.

(** Modelled from the spec: the typedefs [uchar], [ushort] and [uint]
    live in [types.h]; the spec fixes them as 8, 16 and 32 bit unsigned
    values. *)
Inductive ctype := uchar | ushort | uint.

Definition sizeof (t : ctype) : Z :=
  match t with uchar => 1 | ushort => 2 | uint => 4 end.

(** On i386 every scalar is aligned on its own size. *)
Definition alignof (t : ctype) : Z := sizeof t.

Definition bits (t : ctype) : Z := 8 * sizeof t.

(** Conversion to an unsigned type reduces modulo [2^bits]. *)
Definition cast (t : ctype) (z : Z) : Z := z mod 2 ^ bits t.

Definition to_uchar := cast uchar.
Definition to_ushort := cast ushort.
Definition to_uint := cast uint.

Definition INT_MAX : Z := 2 ^ 31 - 1.
Definition INT_MIN : Z := - 2 ^ 31.

Definition is_int (z : Z) : Prop := INT_MIN <= z <= INT_MAX.
Definition is_uint (z : Z) : Prop := 0 <= z < 2 ^ 32.

(** [int] arithmetic as the 32-bit two's complement machine does it. *)
Definition to_int (z : Z) : Z := (z + 2 ^ 31) mod 2 ^ 32 - 2 ^ 31.
Definition int_sub (a b : Z) : Z := to_int (a - b).

End CTypes.

(** ** Machine state *)

Module X86.
Import CTypes.

Definition wrap32 (z : Z) : Z := z mod 2 ^ 32.

Inductive reg := EAX | ECX | EDX | ESI | EDI | ESP | EFLAGS.

Definition reg_eqb (a b : reg) : bool :=
  match a, b with
  | EAX, EAX | ECX, ECX | EDX, EDX | ESI, ESI
  | EDI, EDI | ESP, ESP | EFLAGS, EFLAGS => true
  | _, _ => false
  end.

(** One double word written to an I/O port. *)
Record out_event := OutL { out_port : Z; out_data : Z }.

(** A descriptor-table register: 16-bit limit and 32-bit linear base. *)
Record dtr := Dtr { dt_limit : Z; dt_base : Z }.

Record machine := Machine {
  regs : reg -> Z;
  gdtr : dtr;
  idtr : dtr;
  mem : Z -> Z;                (* one byte per address *)
  port_log : list out_event    (* port writes, oldest first *)
}.

Definition upd (r : reg) (v : Z) (m : machine) : machine :=
  {| regs := fun r' => if reg_eqb r r' then v else regs m r';
     gdtr := gdtr m; idtr := idtr m;
     mem := mem m; port_log := port_log m |}.

Definition set_mem (f : Z -> Z) (m : machine) : machine :=
  {| regs := regs m; gdtr := gdtr m; idtr := idtr m;
     mem := f; port_log := port_log m |}.

Definition set_gdtr (d : dtr) (m : machine) : machine :=
  {| regs := regs m; gdtr := d; idtr := idtr m;
     mem := mem m; port_log := port_log m |}.

Definition set_idtr (d : dtr) (m : machine) : machine :=
  {| regs := regs m; gdtr := gdtr m; idtr := d;
     mem := mem m; port_log := port_log m |}.

Definition log_out (e : out_event) (m : machine) : machine :=
  {| regs := regs m; gdtr := gdtr m; idtr := idtr m;
     mem := mem m; port_log := port_log m ++ [e] |}.

(** *** Memory, little endian *)

Definition load8 (f : Z -> Z) (a : Z) : Z := f (wrap32 a).

Definition store8 (f : Z -> Z) (a v : Z) : Z -> Z :=
  fun x => if x =? wrap32 a then v mod 256 else f x.

(** Byte [k] of a value. *)
Definition byte_of (k v : Z) : Z := (v / 2 ^ (8 * k)) mod 256.

Definition load32 (f : Z -> Z) (a : Z) : Z :=
  load8 f a + 2 ^ 8 * load8 f (a + 1)
  + 2 ^ 16 * load8 f (a + 2) + 2 ^ 24 * load8 f (a + 3).

Definition store32 (f : Z -> Z) (a v : Z) : Z -> Z :=
  store8 (store8 (store8 (store8 f a (byte_of 0 v))
                    (a + 1) (byte_of 1 v))
            (a + 2) (byte_of 2 v))
    (a + 3) (byte_of 3 v).

(** *** Flags *)

Definition IF_bit : Z := 9.
Definition DF_bit : Z := 10.

(** [pushfl] stores the flags with VM and RF (bits 17 and 16) cleared. *)
Definition pushf_mask : Z := 0xFCFFFF.

Definition flag (b : Z) (m : machine) : bool := Z.testbit (regs m EFLAGS) b.

Definition AL (m : machine) : Z := Z.land (regs m EAX) 0xFF.
Definition DX (m : machine) : Z := Z.land (regs m EDX) 0xFFFF.

(** *** Instructions *)

Inductive strop := Stosb | Stosl | Outsl.

Inductive instr :=
| Cld
| Cli
| Sti
| Pushfl
| Popl (r : reg)
| Rep (s : strop)
| LockXchgl (a : Z)            (* lock; xchgl %eax, (a) *)
| Lgdt (pd : list Z)           (* the six bytes of the operand *)
| Lidt (pd : list Z).

(** The pointer of a string instruction moves up when DF is clear. *)
Definition advance (r : reg) (n : Z) (m : machine) : machine :=
  upd r (wrap32 (if flag DF_bit m then regs m r - n else regs m r + n)) m.

(** One iteration of a string instruction, without the count. *)
Definition string_step (s : strop) (m : machine) : machine :=
  match s with
  | Stosb =>
      advance EDI 1 (set_mem (store8 (mem m) (regs m EDI) (AL m)) m)
  | Stosl =>
      advance EDI 4 (set_mem (store32 (mem m) (regs m EDI) (regs m EAX)) m)
  | Outsl =>
      advance ESI 4 (log_out (OutL (DX m) (load32 (mem m) (regs m ESI))) m)
  end.

(** [rep]: while ECX is not zero, run the instruction and decrement ECX. *)
Fixpoint rep_loop (fuel : nat) (s : strop) (m : machine) : machine :=
  match fuel with
  | O => m
  | S fuel' =>
      if regs m ECX =? 0 then m
      else
        let m' := string_step s m in
        rep_loop fuel' s (upd ECX (wrap32 (regs m' ECX - 1)) m')
  end.

Definition rep (s : strop) (m : machine) : machine :=
  rep_loop (Z.to_nat (regs m ECX)) s m.

(** The pseudo-descriptor operand of [lgdt]/[lidt]: a 16-bit limit
    followed by a 32-bit base, both little endian. *)
Definition le_bytes (n : nat) (v : Z) : list Z :=
  map (fun k => byte_of (Z.of_nat k) v) (seq 0 n).

Fixpoint le_value (bs : list Z) : Z :=
  match bs with
  | [] => 0
  | b :: bs' => b + 256 * le_value bs'
  end.

Definition decode_pd (bs : list Z) : dtr :=
  Dtr (le_value (firstn 2 bs)) (le_value (firstn 4 (skipn 2 bs))).

Definition exec (i : instr) (m : machine) : machine :=
  match i with
  | Cld => upd EFLAGS (Z.clearbit (regs m EFLAGS) DF_bit) m
  | Cli => upd EFLAGS (Z.clearbit (regs m EFLAGS) IF_bit) m
  | Sti => upd EFLAGS (Z.setbit (regs m EFLAGS) IF_bit) m
  | Pushfl =>
      let sp := wrap32 (regs m ESP - 4) in
      upd ESP sp
        (set_mem (store32 (mem m) sp (Z.land (regs m EFLAGS) pushf_mask)) m)
  | Popl r =>
      let v := load32 (mem m) (regs m ESP) in
      upd r v (upd ESP (wrap32 (regs m ESP + 4)) m)
  | Rep s => rep s m
  | LockXchgl a =>
      let old := load32 (mem m) a in
      upd EAX old (set_mem (store32 (mem m) a (regs m EAX)) m)
  | Lgdt pd => set_gdtr (decode_pd pd) m
  | Lidt pd => set_idtr (decode_pd pd) m
  end.

Definition run (prog : list instr) (m : machine) : machine :=
  fold_left (fun st i => exec i st) prog m.

(** Input operands of an [asm] statement: each value is placed in its
    32-bit register. *)
Definition load_operands (ops : list (reg * Z)) (m : machine) : machine :=
  fold_left (fun st o => upd (fst o) (wrap32 (snd o)) st) ops m.

(** *** The routines of [x86.h]

    Each routine is its [asm] statement: the input operands are loaded
    into the registers their constraints name, the instructions run, and
    the output operand, if the routine returns one, is read back.  The
    routines embedded here are the ones whose behaviour is stated below;
    the port, segment and control register accessors need machine state
    that no property mentions. *)

(** [outsl]: port in EDX, [addr] in ESI, [cnt] in ECX; [cld; rep outsl]. *)

Definition outsl (port addr cnt : Z) (m : machine) : machine :=
  run [Cld; Rep Outsl]
    (load_operands [(EDX, port); (ESI, addr); (ECX, cnt)] m).

(** [stosb]: [addr] in EDI, [cnt] in ECX, [data] in EAX; [cld; rep stosb]. *)
Definition stosb (addr data cnt : Z) (m : machine) : machine :=
  run [Cld; Rep Stosb]
    (load_operands [(EDI, addr); (ECX, cnt); (EAX, data)] m).

(** [stosl]: the same operands; [cld; rep stosl]. *)
Definition stosl (addr data cnt : Z) (m : machine) : machine :=
  run [Cld; Rep Stosl]
    (load_operands [(EDI, addr); (ECX, cnt); (EAX, data)] m).

(** The memory image of a [ushort] array. *)
Definition pd_bytes (pd : list Z) : list Z :=
  flat_map (le_bytes 2) pd.

(** The local array [volatile ushort pd[3]] that [lgdt] fills in. *)
Definition lgdt_pd (p size : Z) : list Z :=
  [ to_ushort (int_sub size 1);
    to_ushort (to_uint p);
    to_ushort (Z.shiftr (to_uint p) 16) ].

(** The local array [volatile ushort pd[3]] that [lidt] fills in. *)
Definition lidt_pd (p size : Z) : list Z :=
  [ to_ushort (int_sub size 1);
    to_ushort (to_uint p);
    to_ushort (Z.shiftr (to_uint p) 16) ].



(** [readeflags]: [pushfl; popl %0]; the popped register is the result. *)
Definition readeflags (m : machine) : Z * machine :=
  let m' := run [Pushfl; Popl EAX] m in
  (regs m' EAX, m').

(** [cli] and [sti]: one instruction each, at the kernel's privilege. *)
Definition cli (m : machine) : machine := run [Cli] m.

Definition sti (m : machine) : machine := run [Sti] m.

(** [xchg]: [newval] in EAX, [*addr] the memory operand;
    [lock; xchgl]; the result is EAX. *)
Definition xchg (addr newval : Z) (m : machine) : Z * machine :=
  let m' := run [LockXchgl addr] (load_operands [(EAX, newval)] m) in
  (regs m' EAX, m').

(** *** Notions used to state properties *)

(** Bytes moved by one iteration of a string instruction. *)
Definition width (s : strop) : Z :=
  match s with Stosb => 1 | Stosl | Outsl => 4 end.

Definition pointer (s : strop) : reg :=
  match s with Stosb | Stosl => EDI | Outsl => ESI end.

Definition is_store (s : strop) : bool :=
  match s with Stosb | Stosl => true | Outsl => false end.

(** The state after one iteration of [rep]: the body of [rep_loop]. *)
Definition next (s : strop) (m : machine) : machine :=
  upd ECX (wrap32 (regs (string_step s m) ECX - 1)) (string_step s m).

(** The 16-bit field number [i] of a byte record. *)
Definition field16 (i : nat) (bs : list Z) : Z :=
  le_value (firstn 2 (skipn (2 * i) bs)).

(** The words [outsl] sends: [n] double words read upwards from [a]. *)
Definition words_from (f : Z -> Z) (port a : Z) (n : nat) : list out_event :=
  map (fun i => OutL port (load32 f (a + 4 * Z.of_nat i))) (seq 0 n).

(** The interrupt-enable bit as [readeflags] reports it. *)
Definition observed_IF (m : machine) : bool :=
  Z.testbit (fst (readeflags m)) IF_bit.

(** [readeflags(); cli(); sti(); readeflags()]: the interrupt-enable bit
    seen by the first and by the second read. *)
Definition cli_then_sti (m : machine) : bool * bool :=
  let (f0, m1) := readeflags m in
  let m3 := sti (cli m1) in
  let (f1, _) := readeflags m3 in
  (Z.testbit f0 IF_bit, Z.testbit f1 IF_bit).

(** *** Sample states *)

(** A machine with interrupts disabled; only the reserved flag bit 1 is
    set. *)
Definition quiet : machine :=
  {| regs := fun r => match r with EFLAGS => 0x2 | ESP => 0x8000 | _ => 0 end;
     gdtr := Dtr 0 0; idtr := Dtr 0 0;
     mem := fun a => a mod 251;
     port_log := [] |}.

End X86.

(** ** The trap frame *)

Module Layout.
Import CTypes.

(** The groups of fields, as the comments of [struct trapframe] name
    them. *)
Inductive block :=
| PushaRegs        (* registers as pushed by pusha *)
| Rest             (* rest of trap frame *)
| Hardware         (* below here defined by x86 hardware *)
| RingCrossing.    (* below here only when crossing rings *)

Definition block_eqb (a b : block) : bool :=
  match a, b with
  | PushaRegs, PushaRegs | Rest, Rest
  | Hardware, Hardware | RingCrossing, RingCrossing => true
  | _, _ => false
  end.

Record field := Field {
  f_name : string;
  f_type : ctype;
  f_block : block;
  f_ignored : bool             (* "useless & ignored" *)
}.

Definition trapframe : list field :=
  [ Field "edi" uint PushaRegs false;
    Field "esi" uint PushaRegs false;
    Field "ebp" uint PushaRegs false;
    Field "oesp" uint PushaRegs true;
    Field "ebx" uint PushaRegs false;
    Field "edx" uint PushaRegs false;
    Field "ecx" uint PushaRegs false;
    Field "eax" uint PushaRegs false;
    Field "gs" ushort Rest false;
    Field "padding1" ushort Rest false;
    Field "fs" ushort Rest false;
    Field "padding2" ushort Rest false;
    Field "es" ushort Rest false;
    Field "padding3" ushort Rest false;
    Field "ds" ushort Rest false;
    Field "padding4" ushort Rest false;
    Field "trapno" uint Rest false;
    Field "err" uint Hardware false;
    Field "eip" uint Hardware false;
    Field "cs" ushort Hardware false;
    Field "padding5" ushort Hardware false;
    Field "eflags" uint Hardware false;
    Field "esp" uint RingCrossing false;
    Field "ss" ushort RingCrossing false;
    Field "padding6" ushort RingCrossing false ].

(** *** Struct layout

    Each member goes at the first offset, not below the end of the
    previous member, that is a multiple of its alignment. *)

Definition align_up (off a : Z) : Z := (off + a - 1) / a * a.

Record placed := Placed { p_field : field; p_offset : Z }.

Fixpoint place (off : Z) (fs : list field) : list placed :=
  match fs with
  | [] => []
  | f :: fs' =>
      let o := align_up off (alignof (f_type f)) in
      Placed f o :: place (o + sizeof (f_type f)) fs'
  end.

Definition layout (fs : list field) : list placed := place 0 fs.

Definition p_name (p : placed) : string := f_name (p_field p).
Definition p_size (p : placed) : Z := sizeof (f_type (p_field p)).
Definition p_end (p : placed) : Z := p_offset p + p_size p.

Definition lookup (fs : list field) (name : string) : option placed :=
  find (fun p => String.eqb (p_name p) name) (layout fs).

Definition offsetof (fs : list field) (name : string) : option Z :=
  option_map p_offset (lookup fs name).

Definition sizeof_field (fs : list field) (name : string) : option Z :=
  option_map p_size (lookup fs name).

Definition struct_align (fs : list field) : Z :=
  fold_right (fun f a => Z.max (alignof (f_type f)) a) 1 fs.

Definition struct_end (fs : list field) : Z :=
  fold_left (fun _ p => p_end p) (layout fs) 0.

Definition sizeof_struct (fs : list field) : Z :=
  align_up (struct_end fs) (struct_align fs).

(** The members of one group, with their offsets. *)
Definition block_of (b : block) (fs : list field) : list placed :=
  filter (fun p => block_eqb (f_block (p_field p)) b) (layout fs).

(** Name, offset and size of the members placed in [[lo, hi)]. *)
Definition slots (lo hi : Z) (fs : list field) : list (string * Z * Z) :=
  map (fun p => (p_name p, p_offset p, p_size p))
    (filter (fun p => (lo <=? p_offset p) && (p_offset p <? hi)) (layout fs)).

(** The member that starts where [name] ends, if any. *)
Definition next_after (fs : list field) (name : string) : option string :=
  match lookup fs name with
  | None => None
  | Some p =>
      option_map p_name
        (find (fun q => p_offset q =? p_end p) (layout fs))
  end.

End Layout.

(** ** Port input

    [insl] reads from a device.  The devices are a table of what each
    port delivers, read after read; the machine keeps count of the reads
    it has made on each port. *)

Module PortIn.
Import CTypes X86.

Record io_machine := IoMachine {
  cpu : machine;
  device : Z -> nat -> Z;      (* port, index of the read: the value read *)
  taken : Z -> nat             (* reads made so far on each port *)
}.

Definition with_cpu (c : machine) (io : io_machine) : io_machine :=
  {| cpu := c; device := device io; taken := taken io |}.

(** One iteration of [insl], without the count: a double word comes in
    from port DX and goes to the address in EDI, which moves on. *)
Definition insl_step (io : io_machine) : io_machine :=
  let c := cpu io in
  let v := wrap32 (device io (DX c) (taken io (DX c))) in
  {| cpu := advance EDI 4 (set_mem (store32 (mem c) (regs c EDI) v) c);
     device := device io;
     taken := fun p => if p =? DX c then S (taken io p) else taken io p |}.

(** [rep insl]: as [rep_loop], over the machine with its devices. *)
Fixpoint rep_insl_loop (fuel : nat) (io : io_machine) : io_machine :=
  match fuel with
  | O => io
  | S fuel' =>
      if regs (cpu io) ECX =? 0 then io
      else
        let io' := insl_step io in
        rep_insl_loop fuel'
          (with_cpu (upd ECX (wrap32 (regs (cpu io') ECX - 1)) (cpu io')) io')
  end.

(** [insl]: port in EDX, [addr] in EDI, [cnt] in ECX; [cld; rep insl]. *)
Definition insl (port addr cnt : Z) (io : io_machine) : io_machine :=
  let c :=
    exec Cld (load_operands [(EDX, port); (EDI, addr); (ECX, cnt)] (cpu io))
  in
  rep_insl_loop (Z.to_nat (regs c ECX)) (with_cpu c io).

(** *** Notions used to state properties *)

(** The state after one iteration of [rep insl]: the body of
    [rep_insl_loop]. *)
Definition next_in (io : io_machine) : io_machine :=
  with_cpu
    (upd ECX (wrap32 (regs (cpu (insl_step io)) ECX - 1)) (cpu (insl_step io)))
    (insl_step io).

(** The double word number [i] that [io] has yet to read from [port]. *)
Definition pending (io : io_machine) (port : Z) (i : nat) : Z :=
  wrap32 (device io port (taken io port + i)%nat).

(** A machine whose port 0x1F0 delivers 0x11111111, 0x22222222, ... *)
Definition disk : io_machine :=
  {| cpu := quiet;
     device := fun p i => if p =? 0x1F0 then 0x11111111 * Z.of_nat (S i) else 0;
     taken := fun _ => O |}.

End PortIn.

(** ** Ranges of addresses *)

Module Range.
Import X86.

(** Whether [a] is one of the [n] addresses [addr], [addr + 1], ...,
    counted modulo [2^32]. *)
Definition covered (addr n a : Z) : bool :=
  (0 <=? a) && (a <? 2 ^ 32) && (wrap32 (a - addr) <? n).

(** The value whose four bytes are all [b]. *)
Definition replicate4 (b : Z) : Z := b + 2 ^ 8 * b + 2 ^ 16 * b + 2 ^ 24 * b.

End Range.

(** ** Facts about the machine model *)

Module X86Facts.
Import CTypes X86.

Ltac zmod :=
  unfold wrap32, not in *; intros; Z.div_mod_to_equations; lia.

Lemma wrap32_range z : 0 <= wrap32 z < 2 ^ 32.
Proof. unfold wrap32. apply Z.mod_pos_bound. lia. Qed.

Lemma wrap32_small z : 0 <= z < 2 ^ 32 -> wrap32 z = z.
Proof. intros H. unfold wrap32. apply Z.mod_small. exact H. Qed.

Lemma wrap32_idem z : wrap32 (wrap32 z) = wrap32 z.
Proof. apply wrap32_small, wrap32_range. Qed.

Lemma wrap32_add_l a b : wrap32 (wrap32 a + b) = wrap32 (a + b).
Proof. unfold wrap32. apply Zplus_mod_idemp_l. Qed.

Lemma wrap32_add_l3 a b c : wrap32 (wrap32 a + b + c) = wrap32 (a + b + c).
Proof. now rewrite <- !Z.add_assoc, wrap32_add_l. Qed.

(** Addresses less than [2^32] apart are distinct after wrapping. *)
Lemma wrap32_apart a j k :
  0 <= j < 2 ^ 32 -> 0 <= k < 2 ^ 32 -> j <> k ->
  wrap32 (a + j) <> wrap32 (a + k).
Proof.
  intros Hj Hk Hjk H. apply Hjk. unfold wrap32 in H.
  assert (E : (j - k) mod 2 ^ 32 = 0).
  { replace (j - k) with ((a + j) - (a + k)) by lia.
    rewrite Zminus_mod, H, Z.sub_diag. reflexivity. }
  apply Z.mod_divide in E; [| lia].
  destruct E as [q E].
  assert (q = 0) by nia. lia.
Qed.

(** Wrapped addresses that coincide differ by a multiple of four. *)
Lemma wrap32_eq_mod4 x y : wrap32 x = wrap32 y -> x mod 4 = y mod 4.
Proof.
  intros H. unfold wrap32 in H.
  apply (f_equal (fun z => z mod 4)) in H.
  rewrite !Z.mod_mod_divide in H by (exists (2 ^ 30); reflexivity).
  exact H.
Qed.

(** *** Registers *)

Lemma regs_upd_same r v m : regs (upd r v m) r = v.
Proof. destruct r; reflexivity. Qed.

Lemma regs_upd_other r r' v m :
  reg_eqb r r' = false -> regs (upd r v m) r' = regs m r'.
Proof. intros H. simpl. now rewrite H. Qed.

(** *** Bytes and double words *)

Lemma store8_same f a v : store8 f a v (wrap32 a) = v mod 256.
Proof. unfold store8. now rewrite Z.eqb_refl. Qed.

Lemma store8_other f a v x : x <> wrap32 a -> store8 f a v x = f x.
Proof.
  intros H. unfold store8.
  destruct (Z.eqb_spec x (wrap32 a)); [contradiction | reflexivity].
Qed.

Lemma byte_of_range k v : 0 <= byte_of k v < 256.
Proof. unfold byte_of. apply Z.mod_pos_bound. lia. Qed.

Lemma byte_of_mod256 k v : byte_of k v mod 256 = byte_of k v.
Proof. apply Z.mod_small, byte_of_range. Qed.

Lemma byte_of_wrap32 k v : 0 <= k < 4 -> byte_of k (wrap32 v) = byte_of k v.
Proof.
  intros Hk. unfold byte_of.
  assert (Hc : k = 0 \/ k = 1 \/ k = 2 \/ k = 3) by lia.
  destruct Hc as [-> | [-> | [-> | ->]]]; simpl; zmod.
Qed.

(** The four bytes of a value make up its low 32 bits. *)
Lemma bytes_compose v :
  byte_of 0 v + 2 ^ 8 * byte_of 1 v
  + 2 ^ 16 * byte_of 2 v + 2 ^ 24 * byte_of 3 v = wrap32 v.
Proof.
  unfold byte_of, wrap32.
  change (2 ^ 32) with (256 * (256 * (256 * 256))).
  rewrite !Z.rem_mul_r by lia.
  rewrite !Z.div_div by lia.
  change (2 ^ (8 * 0)) with 1. rewrite Z.div_1_r.
  change (2 ^ (8 * 1)) with 256.
  change (2 ^ (8 * 2)) with (256 * 256).
  change (2 ^ (8 * 3)) with (256 * 256 * 256).
  change (2 ^ 8) with 256.
  change (2 ^ 16) with (256 * 256).
  change (2 ^ 24) with (256 * 256 * 256).
  ring.
Qed.

Lemma store32_byte f a v k :
  0 <= k < 4 -> store32 f a v (wrap32 (a + k)) = byte_of k v.
Proof.
  intros Hk. unfold store32.
  assert (Hc : k = 0 \/ k = 1 \/ k = 2 \/ k = 3) by lia.
  destruct Hc as [-> | [-> | [-> | ->]]].
  - do 3 rewrite store8_other by (apply wrap32_apart; lia).
    rewrite Z.add_0_r, store8_same. apply byte_of_mod256.
  - do 2 rewrite store8_other by (apply wrap32_apart; lia).
    rewrite store8_same. apply byte_of_mod256.
  - rewrite store8_other by (apply wrap32_apart; lia).
    rewrite store8_same. apply byte_of_mod256.
  - rewrite store8_same. apply byte_of_mod256.
Qed.

Lemma store32_other f a v x :
  (forall k, 0 <= k < 4 -> x <> wrap32 (a + k)) -> store32 f a v x = f x.
Proof.
  intros H. unfold store32.
  rewrite !store8_other; try (apply H; lia).
  - reflexivity.
  - rewrite <- (Z.add_0_r a). apply H. lia.
Qed.

Lemma load32_store32 f a v : load32 (store32 f a v) a = wrap32 v.
Proof.
  unfold load32, load8.
  rewrite <- (Z.add_0_r a) at 2.
  rewrite !store32_byte by lia.
  apply bytes_compose.
Qed.

Lemma load32_agree f g a :
  (forall k, 0 <= k < 4 -> f (wrap32 (a + k)) = g (wrap32 (a + k))) ->
  load32 f a = load32 g a.
Proof.
  intros H. unfold load32, load8.
  rewrite <- (Z.add_0_r a) at 1 5.
  now rewrite !H by lia.
Qed.

(** *** One iteration of a repeated string instruction *)

Lemma rep_loop_next n s m :
  regs m ECX <> 0 -> rep_loop (S n) s m = rep_loop n s (next s m).
Proof.
  intros H. simpl.
  destruct (Z.eqb_spec (regs m ECX) 0); [contradiction | reflexivity].
Qed.

Lemma rep_loop_stop n s m : regs m ECX = 0 -> rep_loop n s m = m.
Proof. intros H. destruct n; simpl; [| rewrite H]; reflexivity. Qed.

Lemma next_ecx s m : regs (next s m) ECX = wrap32 (regs m ECX - 1).
Proof. destruct s; reflexivity. Qed.

Lemma next_eflags s m : regs (next s m) EFLAGS = regs m EFLAGS.
Proof. destruct s; reflexivity. Qed.

Lemma next_flag b s m : flag b (next s m) = flag b m.
Proof. unfold flag. now rewrite next_eflags. Qed.

Lemma next_eax s m : regs (next s m) EAX = regs m EAX.
Proof. destruct s; reflexivity. Qed.

Lemma next_edx s m : regs (next s m) EDX = regs m EDX.
Proof. destruct s; reflexivity. Qed.

Lemma flag_set_mem b f m : flag b (set_mem f m) = flag b m.
Proof. reflexivity. Qed.

Lemma flag_log_out b e m : flag b (log_out e m) = flag b m.
Proof. reflexivity. Qed.

Lemma next_pointer s m :
  flag DF_bit m = false ->
  regs (next s m) (pointer s) = wrap32 (regs m (pointer s) + width s).
Proof.
  intros H.
  destruct s; unfold next, string_step, advance;
    rewrite regs_upd_other, regs_upd_same by reflexivity;
    [ rewrite flag_set_mem | rewrite flag_set_mem | rewrite flag_log_out ];
    rewrite H; reflexivity.
Qed.

Lemma AL_byte m : AL m = byte_of 0 (regs m EAX).
Proof.
  unfold AL, byte_of. change 0xFF with (Z.ones 8).
  rewrite Z.land_ones by lia.
  change (2 ^ (8 * 0)) with 1. now rewrite Z.div_1_r.
Qed.

Lemma DX_low16 m : DX m = regs m EDX mod 2 ^ 16.
Proof.
  unfold DX. change 0xFFFF with (Z.ones 16). apply Z.land_ones. lia.
Qed.

Lemma next_mem_stosb m :
  mem (next Stosb m) = store8 (mem m) (regs m EDI) (AL m).
Proof. reflexivity. Qed.

Lemma next_mem_stosl m :
  mem (next Stosl m) = store32 (mem m) (regs m EDI) (regs m EAX).
Proof. reflexivity. Qed.

Lemma next_mem_outsl m : mem (next Outsl m) = mem m.
Proof. reflexivity. Qed.

(** A store writes byte [k] of EAX at offset [k] from EDI. *)
Lemma next_mem_written s m k :
  is_store s = true -> 0 <= k < width s ->
  mem (next s m) (wrap32 (regs m EDI + k)) = byte_of k (regs m EAX).
Proof.
  intros Hs Hk. destruct s; try discriminate; simpl in Hk.
  - assert (k = 0) as -> by lia.
    rewrite next_mem_stosb, Z.add_0_r, store8_same, AL_byte.
    apply byte_of_mod256.
  - rewrite next_mem_stosl. now apply store32_byte.
Qed.

(** ... and nothing else. *)
Lemma next_mem_kept s m a :
  (forall k, 0 <= k < width s -> a <> wrap32 (regs m EDI + k)) ->
  mem (next s m) a = mem m a.
Proof.
  intros H. destruct s; simpl in H.
  - rewrite next_mem_stosb. apply store8_other.
    rewrite <- (Z.add_0_r (regs m EDI)). apply H. lia.
  - rewrite next_mem_stosl. now apply store32_other.
  - now rewrite next_mem_outsl.
Qed.

(** *** The whole loop *)

Lemma rep_loop_exhausts n s : forall m,
  regs m ECX = Z.of_nat n -> Z.of_nat n < 2 ^ 32 ->
  regs (rep_loop n s m) ECX = 0.
Proof.
  induction n as [| n IH]; intros m He Hn.
  - exact He.
  - rewrite rep_loop_next by lia.
    apply IH; [| lia].
    rewrite next_ecx, He, wrap32_small; lia.
Qed.

(** With the fuel [rep] gives it, the loop runs until ECX is zero. *)
Lemma rep_exhausts s m :
  0 <= regs m ECX < 2 ^ 32 -> regs (rep s m) ECX = 0.
Proof.
  intros H. unfold rep. apply rep_loop_exhausts; rewrite Z2Nat.id; lia.
Qed.

Section Fill.
Variable s : strop.
Hypothesis Hs : is_store s = true.

Let w := width s.

Lemma next_edi m :
  flag DF_bit m = false ->
  regs (next s m) EDI = wrap32 (regs m EDI + w).
Proof.
  intros H. generalize (next_pointer s m H).
  destruct s; try discriminate; auto.
Qed.

Lemma width_cases : w = 1 \/ w = 4.
Proof. unfold w. destruct s; simpl; auto. Qed.

Lemma written_or_not d a :
  (exists k, 0 <= k < w /\ a = wrap32 (d + k))
  \/ (forall k, 0 <= k < w -> a <> wrap32 (d + k)).
Proof.
  destruct (Z.eq_dec a (wrap32 (d + 0))) as [E0 | N0];
    [left; exists 0; destruct width_cases; split; auto; lia |].
  destruct width_cases as [W | W].
  - right. intros k Hk. assert (k = 0) as -> by lia. exact N0.
  - destruct (Z.eq_dec a (wrap32 (d + 1))) as [E1 | N1];
      [left; exists 1; split; auto; lia |].
    destruct (Z.eq_dec a (wrap32 (d + 2))) as [E2 | N2];
      [left; exists 2; split; auto; lia |].
    destruct (Z.eq_dec a (wrap32 (d + 3))) as [E3 | N3];
      [left; exists 3; split; auto; lia |].
    right. intros k Hk.
    assert (Hc : k = 0 \/ k = 1 \/ k = 2 \/ k = 3) by lia.
    destruct Hc as [-> | [-> | [-> | ->]]]; assumption.
Qed.

(** The offset within a unit is determined by the wrapped address. *)
Lemma unit_offset_unique d i k i' k' :
  0 <= k < w -> 0 <= k' < w ->
  wrap32 (d + w * i + k) = wrap32 (d + w * i' + k') -> k = k'.
Proof.
  intros Hk Hk' E. destruct width_cases as [W | W]; [lia |].
  apply wrap32_eq_mod4 in E. rewrite W in *.
  Z.div_mod_to_equations. lia.
Qed.

(** Every byte is either left alone or holds the byte of EAX that
    belongs at its offset within some unit of the filled range. *)
Lemma fill_touched n : forall m a,
  flag DF_bit m = false ->
  mem (rep_loop n s m) a = mem m a
  \/ exists i k,
       0 <= i < Z.of_nat n /\ 0 <= k < w
       /\ a = wrap32 (regs m EDI + w * i + k)
       /\ mem (rep_loop n s m) a = byte_of k (regs m EAX).
Proof.
  induction n as [| n IH]; intros m a Hd; [now left |].
  destruct (Z.eq_dec (regs m ECX) 0) as [Z0 | NZ];
    [rewrite rep_loop_stop by exact Z0; now left |].
  rewrite rep_loop_next by exact NZ.
  destruct (IH (next s m) a) as [Hk | (i & k & Hi & Hk & Ha & Hv)].
  - now rewrite next_flag.
  - rewrite Hk.
    destruct (written_or_not (regs m EDI) a) as [(k & Hk' & Ha) | Hn].
    + right. exists 0, k. repeat split; try lia.
      * rewrite Z.mul_0_r, Z.add_0_r. exact Ha.
      * rewrite Ha. now apply next_mem_written.
    + left. now apply next_mem_kept.
  - right. exists (i + 1), k. repeat split; try lia.
    + rewrite Ha, next_edi, wrap32_add_l3 by exact Hd. f_equal. lia.
    + now rewrite Hv, next_eax.
Qed.

Lemma fill_outside n m a :
  flag DF_bit m = false ->
  (forall j, 0 <= j < w * Z.of_nat n -> a <> wrap32 (regs m EDI + j)) ->
  mem (rep_loop n s m) a = mem m a.
Proof.
  intros Hd Hout.
  destruct (fill_touched n m a Hd) as [H | (i & k & Hi & Hk & Ha & _)];
    [exact H | exfalso].
  apply (Hout (w * i + k)); [nia | now rewrite Z.add_assoc].
Qed.

Lemma fill_inside n : forall m i k,
  regs m ECX = Z.of_nat n -> Z.of_nat n < 2 ^ 32 ->
  flag DF_bit m = false ->
  0 <= i < Z.of_nat n -> 0 <= k < w ->
  mem (rep_loop n s m) (wrap32 (regs m EDI + w * i + k))
  = byte_of k (regs m EAX).
Proof.
  induction n as [| n IH]; intros m i k He Hn Hd Hi Hk; [lia |].
  rewrite rep_loop_next by lia.
  assert (He' : regs (next s m) ECX = Z.of_nat n)
    by (rewrite next_ecx, He, wrap32_small; lia).
  assert (Hd' : flag DF_bit (next s m) = false) by now rewrite next_flag.
  destruct (Z.eq_dec i 0) as [-> | Hi0].
  - destruct (fill_touched n (next s m)
                (wrap32 (regs m EDI + w * 0 + k)) Hd')
      as [H | (i' & k' & Hi' & Hk' & Ha & Hv)].
    + rewrite H, Z.mul_0_r, Z.add_0_r. now apply next_mem_written.
    + rewrite Hv, next_eax. f_equal.
      rewrite next_edi, wrap32_add_l3 in Ha by exact Hd.
      replace (regs m EDI + w + w * i' + k')
        with (regs m EDI + w * (i' + 1) + k') in Ha by lia.
      symmetry. eapply unit_offset_unique; eauto.
  - replace (wrap32 (regs m EDI + w * i + k))
      with (wrap32 (regs (next s m) EDI + w * (i - 1) + k)).
    + rewrite IH by (auto; lia). now rewrite next_eax.
    + rewrite next_edi, wrap32_add_l3 by exact Hd. f_equal. lia.
Qed.

End Fill.

(** *** The fill routines *)

Lemma cld_clears_DF m : flag DF_bit (exec Cld m) = false.
Proof.
  unfold flag, exec. rewrite regs_upd_same.
  apply Z.clearbit_eq.
Qed.

Lemma load32_bytes f a v :
  (forall k, 0 <= k < 4 -> f (wrap32 (a + k)) = byte_of k v) ->
  load32 f a = wrap32 v.
Proof.
  intros H. unfold load32, load8.
  rewrite <- (Z.add_0_r a) at 1.
  rewrite !H by lia. apply bytes_compose.
Qed.

Lemma byte0_to_uchar v : byte_of 0 (wrap32 v) = to_uchar v.
Proof.
  rewrite byte_of_wrap32 by lia. unfold byte_of.
  change (2 ^ (8 * 0)) with 1. now rewrite Z.div_1_r.
Qed.

Section FillRoutine.
Variables (m : machine) (addr data cnt : Z).

Let m0 :=
  exec Cld (load_operands [(EDI, addr); (ECX, cnt); (EAX, data)] m).
Let n := Z.to_nat (wrap32 cnt).

Lemma fill_count : Z.of_nat n = wrap32 cnt /\ Z.of_nat n < 2 ^ 32.
Proof.
  pose proof (wrap32_range cnt). unfold n.
  rewrite Z2Nat.id; lia.
Qed.

Lemma fill_entry :
  regs m0 EDI = wrap32 addr /\ regs m0 ECX = Z.of_nat n
  /\ regs m0 EAX = wrap32 data /\ flag DF_bit m0 = false
  /\ mem m0 = mem m.
Proof.
  split; [reflexivity |].
  split; [symmetry; apply fill_count |].
  split; [reflexivity |].
  split; [apply cld_clears_DF | reflexivity].
Qed.

Lemma stosb_loop : stosb addr data cnt m = rep_loop n Stosb m0.
Proof. reflexivity. Qed.

Lemma stosl_loop : stosl addr data cnt m = rep_loop n Stosl m0.
Proof. reflexivity. Qed.

Lemma stosb_filled j :
  0 <= j < wrap32 cnt ->
  load8 (mem (stosb addr data cnt m)) (addr + j) = to_uchar data.
Proof.
  intros Hj.
  destruct fill_entry as (Hdi & Hcx & Hax & Hdf & _).
  destruct fill_count as (Hn & Hlt).
  rewrite stosb_loop. unfold load8.
  replace (wrap32 (addr + j))
    with (wrap32 (regs m0 EDI + width Stosb * j + 0))
    by (rewrite Hdi, wrap32_add_l3; f_equal;
        change (width Stosb) with 1; lia).
  rewrite (fill_inside Stosb eq_refl n m0 j 0)
    by (change (width Stosb) with 1; auto; lia).
  rewrite Hax. apply byte0_to_uchar.
Qed.

Lemma stosb_frame a :
  (forall j, 0 <= j < wrap32 cnt -> a <> wrap32 (addr + j)) ->
  mem (stosb addr data cnt m) a = mem m a.
Proof.
  intros Hout.
  destruct fill_entry as (Hdi & _ & _ & Hdf & Hm).
  destruct fill_count as (Hn & _).
  rewrite stosb_loop, <- Hm.
  apply (fill_outside Stosb eq_refl); [exact Hdf |].
  intros j Hj. rewrite Hdi, wrap32_add_l.
  apply Hout. change (width Stosb) with 1 in Hj. lia.
Qed.

Lemma stosl_filled i :
  0 <= i < wrap32 cnt ->
  load32 (mem (stosl addr data cnt m)) (addr + 4 * i) = to_uint data.
Proof.
  intros Hi.
  destruct fill_entry as (Hdi & Hcx & Hax & Hdf & _).
  destruct fill_count as (Hn & Hlt).
  rewrite stosl_loop.
  change (to_uint data) with (wrap32 data).
  rewrite <- (wrap32_idem data).
  apply load32_bytes. intros k Hk.
  replace (wrap32 (addr + 4 * i + k))
    with (wrap32 (regs m0 EDI + width Stosl * i + k))
    by (rewrite Hdi, wrap32_add_l3; reflexivity).
  rewrite (fill_inside Stosl eq_refl n m0 i k)
    by (change (width Stosl) with 4; auto; lia).
  now rewrite Hax.
Qed.

Lemma stosl_frame a :
  (forall j, 0 <= j < 4 * wrap32 cnt -> a <> wrap32 (addr + j)) ->
  mem (stosl addr data cnt m) a = mem m a.
Proof.
  intros Hout.
  destruct fill_entry as (Hdi & _ & _ & Hdf & Hm).
  destruct fill_count as (Hn & _).
  rewrite stosl_loop, <- Hm.
  apply (fill_outside Stosl eq_refl); [exact Hdf |].
  intros j Hj. rewrite Hdi, wrap32_add_l.
  apply Hout. change (width Stosl) with 4 in Hj. lia.
Qed.

End FillRoutine.

(** Two runs of [rep stosb] that start with the same memory, pointer,
    count, flags and AL write the same memory, whatever the rest of EAX. *)
Lemma rep_stosb_agree n : forall m1 m2,
  mem m1 = mem m2 -> regs m1 EDI = regs m2 EDI ->
  regs m1 ECX = regs m2 ECX -> regs m1 EFLAGS = regs m2 EFLAGS ->
  AL m1 = AL m2 ->
  mem (rep_loop n Stosb m1) = mem (rep_loop n Stosb m2).
Proof.
  induction n as [| n IH]; intros m1 m2 Hm Hdi Hcx Hfl Hal; [exact Hm |].
  destruct (Z.eq_dec (regs m1 ECX) 0) as [Z0 | NZ].
  - rewrite !rep_loop_stop by congruence. exact Hm.
  - rewrite !rep_loop_next by congruence.
    apply IH.
    + rewrite !next_mem_stosb. congruence.
    + change (wrap32 (if flag DF_bit m1 then regs m1 EDI - 1
                      else regs m1 EDI + 1)
              = wrap32 (if flag DF_bit m2 then regs m2 EDI - 1
                        else regs m2 EDI + 1)).
      unfold flag. now rewrite Hfl, Hdi.
    + rewrite !next_ecx. congruence.
    + rewrite !next_eflags. exact Hfl.
    + unfold AL in *. rewrite !next_eax. exact Hal.
Qed.

(** *** The port write routine *)

Lemma load32_wrap f a b : load32 f (wrap32 a + b) = load32 f (a + b).
Proof.
  unfold load32, load8. now rewrite wrap32_add_l, !wrap32_add_l3.
Qed.

Lemma words_from_wrap f p a n :
  words_from f p (wrap32 a) n = words_from f p a n.
Proof.
  unfold words_from. apply map_ext. intros i. now rewrite load32_wrap.
Qed.

Lemma words_from_succ f p a n :
  words_from f p a (S n) = OutL p (load32 f a) :: words_from f p (a + 4) n.
Proof.
  unfold words_from. cbn [seq map].
  rewrite <- seq_shift, map_map.
  change (Z.of_nat 0) with 0. rewrite Z.mul_0_r, Z.add_0_r.
  f_equal. apply map_ext. intros i.
  do 2 f_equal. lia.
Qed.

Lemma words_from_length f p a n :
  List.length (words_from f p a n) = n.
Proof. unfold words_from. now rewrite length_map, length_seq. Qed.

Lemma rep_outsl n : forall m,
  regs m ECX = Z.of_nat n -> Z.of_nat n < 2 ^ 32 ->
  flag DF_bit m = false ->
  mem (rep_loop n Outsl m) = mem m
  /\ port_log (rep_loop n Outsl m)
     = port_log m ++ words_from (mem m) (DX m) (regs m ESI) n.
Proof.
  induction n as [| n IH]; intros m He Hn Hd.
  - split; [reflexivity |]. simpl. now rewrite app_nil_r.
  - rewrite rep_loop_next by lia.
    destruct (IH (next Outsl m)) as [Hmem Hlog].
    + rewrite next_ecx, He, wrap32_small; lia.
    + lia.
    + now rewrite next_flag.
    + split; [now rewrite Hmem |].
      pose proof (next_pointer Outsl m Hd) as Hp.
      change (pointer Outsl) with ESI in Hp.
      rewrite Hlog, words_from_succ, Hp, words_from_wrap.
      change (mem (next Outsl m)) with (mem m).
      change (DX (next Outsl m)) with (DX m).
      change (width Outsl) with 4.
      change (port_log (next Outsl m))
        with (port_log m ++ [OutL (DX m) (load32 (mem m) (regs m ESI))]).
      rewrite <- app_assoc. reflexivity.
Qed.

(** *** Reading the flags *)

Lemma readeflags_value m :
  fst (readeflags m) = wrap32 (Z.land (regs m EFLAGS) pushf_mask).
Proof.
  unfold readeflags, run. cbn [fold_left fst].
  unfold exec at 1. rewrite regs_upd_same.
  apply load32_store32.
Qed.

Lemma readeflags_keeps_flags m :
  regs (snd (readeflags m)) EFLAGS = regs m EFLAGS.
Proof. reflexivity. Qed.

Lemma observed_bit m b :
  0 <= b < 16 ->
  Z.testbit (fst (readeflags m)) b = Z.testbit (regs m EFLAGS) b.
Proof.
  intros Hb. rewrite readeflags_value. unfold wrap32.
  rewrite Z.mod_pow2_bits_low, Z.land_spec by lia.
  assert (Hm : Z.testbit pushf_mask b = true).
  { assert (Hc : b = 0 \/ b = 1 \/ b = 2 \/ b = 3 \/ b = 4 \/ b = 5
                 \/ b = 6 \/ b = 7 \/ b = 8 \/ b = 9 \/ b = 10
                 \/ b = 11 \/ b = 12 \/ b = 13 \/ b = 14 \/ b = 15)
      by lia.
    repeat (destruct Hc as [-> | Hc]; [reflexivity |]).
    subst b. reflexivity. }
  rewrite Hm. apply andb_true_r.
Qed.

Lemma flags_after_cli_sti m :
  regs (sti (cli m)) EFLAGS
  = Z.setbit (Z.clearbit (regs m EFLAGS) IF_bit) IF_bit.
Proof. reflexivity. Qed.

(** *** Descriptor records *)

Lemma to_ushort_low16 v : to_ushort v = Z.land v 0xFFFF.
Proof.
  change 0xFFFF with (Z.ones 16). rewrite Z.land_ones by lia. reflexivity.
Qed.

Lemma to_ushort_range v : 0 <= to_ushort v < 2 ^ 16.
Proof.
  unfold to_ushort, cast. change (bits ushort) with 16.
  apply Z.mod_pos_bound. lia.
Qed.

Lemma to_uint_small p : is_uint p -> to_uint p = p.
Proof. intros H. apply Z.mod_small. exact H. Qed.

Lemma int_sub_small a b : is_int (a - b) -> int_sub a b = a - b.
Proof.
  unfold is_int, INT_MIN, INT_MAX, int_sub, to_int. intros H.
  rewrite Z.mod_small; lia.
Qed.

Lemma ushort_bytes v :
  0 <= v < 2 ^ 16 -> le_value (le_bytes 2 v) = v.
Proof.
  intros H. change (le_bytes 2 v) with [byte_of 0 v; byte_of 1 v].
  unfold le_value, byte_of.
  change (2 ^ (8 * 0)) with 1. change (2 ^ (8 * 1)) with 256.
  rewrite Z.div_1_r, Z.mul_0_r, Z.add_0_r.
  rewrite <- Z.rem_mul_r by lia. apply Z.mod_small. exact H.
Qed.

(** The fields of the image of a three-element [ushort] array. *)
Lemma pd_bytes_fields a b c :
  0 <= a < 2 ^ 16 -> 0 <= b < 2 ^ 16 -> 0 <= c < 2 ^ 16 ->
  List.length (pd_bytes [a; b; c]) = 6%nat
  /\ map (fun i => field16 i (pd_bytes [a; b; c])) [0; 1; 2]%nat
     = [a; b; c].
Proof.
  intros Ha Hb Hc. split; [reflexivity |].
  cbn [map]. unfold field16.
  change (firstn 2 (skipn (2 * 0) (pd_bytes [a; b; c])))
    with (le_bytes 2 a).
  change (firstn 2 (skipn (2 * 1) (pd_bytes [a; b; c])))
    with (le_bytes 2 b).
  change (firstn 2 (skipn (2 * 2) (pd_bytes [a; b; c])))
    with (le_bytes 2 c).
  now rewrite !ushort_bytes.
Qed.

Lemma pd_values p size :
  1 <= size <= 65536 -> is_uint p ->
  [ to_ushort (int_sub size 1);
    to_ushort (to_uint p);
    to_ushort (Z.shiftr (to_uint p) 16) ]
  = [ (size - 1) mod 2 ^ 16;
      Z.land p 0xFFFF;
      Z.land (Z.shiftr p 16) 0xFFFF ].
Proof.
  intros Hs Hp.
  rewrite int_sub_small by (unfold is_int, INT_MIN, INT_MAX; lia).
  rewrite to_uint_small by exact Hp.
  now rewrite <- !to_ushort_low16.
Qed.





End X86Facts.

(** ** The trap frame layout *)

Module TrapFrame.
Import CTypes Layout.

(** The layout rule puts each member on a multiple of its alignment. *)
Lemma align_up_multiple off a : 0 < a -> (align_up off a) mod a = 0.
Proof. intros Ha. unfold align_up. apply Z.mod_mul. lia. Qed.

Lemma align_up_ge off a : 0 < a -> off <= align_up off a < off + a.
Proof.
  intros Ha. unfold align_up.
  pose proof (Z.div_mod (off + a - 1) a ltac:(lia)) as E.
  pose proof (Z.mod_pos_bound (off + a - 1) a Ha) as B.
  rewrite (Z.mul_comm a) in E. lia.
Qed.

Lemma alignof_pos t : 0 < alignof t.
Proof. destruct t; reflexivity. Qed.

Lemma place_aligned fs : forall off p,
  In p (place off fs) -> p_offset p mod alignof (f_type (p_field p)) = 0.
Proof.
  induction fs as [| f fs IH]; intros off p Hin; [contradiction |].
  destruct Hin as [<- | Hin].
  - apply align_up_multiple, alignof_pos.
  - eapply IH, Hin.
Qed.

Lemma place_above fs : forall off p,
  In p (place off fs) -> off <= p_offset p.
Proof.
  induction fs as [| f fs IH]; intros off p Hin; [contradiction |].
  pose proof (align_up_ge off _ (alignof_pos (f_type f))) as B.
  destruct Hin as [<- | Hin]; [simpl; lia |].
  apply IH in Hin.
  assert (0 < sizeof (f_type f)) by apply alignof_pos. lia.
Qed.

(** The compiler inserts no padding of its own into the trap frame:
    every member starts where the previous one ends, and the frame is
    76 bytes long. *)
Lemma trapframe_packed :
  map p_offset (layout trapframe)
  = removelast (0 :: map p_end (layout trapframe))
  /\ sizeof_struct trapframe = 76.
Proof. split; reflexivity. Qed.

End TrapFrame.

(** ** Properties of the trap frame *)

(** C1: the byte offsets of the members of [struct trapframe] are the
    fixed table: the eight 32-bit registers at 0 to 28, [trapno] at 48
    right after the four selector slots, [err] at 52 right after
    [trapno], [eip] at 56, [cs] at 60 followed by its 16-bit padding,
    [eflags] at 64, [esp] at 68 and [ss] at 72 followed by its padding,
    so that each selector fills a 32-bit slot. *)
Theorem trapframe_offsets :
  map (fun n => (n, Layout.offsetof Layout.trapframe n))
    [ "edi"; "esi"; "ebp"; "oesp"; "ebx"; "edx"; "ecx"; "eax";
      "trapno"; "err"; "eip"; "cs"; "eflags"; "esp"; "ss" ]%string
  = [ ("edi", Some 0); ("esi", Some 4); ("ebp", Some 8); ("oesp", Some 12);
      ("ebx", Some 16); ("edx", Some 20); ("ecx", Some 24); ("eax", Some 28);
      ("trapno", Some 48); ("err", Some 52); ("eip", Some 56);
      ("cs", Some 60); ("eflags", Some 64); ("esp", Some 68);
      ("ss", Some 72) ]%string
  /\ Layout.slots 32 48 Layout.trapframe
     = [ ("gs", 32, 2); ("padding1", 34, 2); ("fs", 36, 2);
         ("padding2", 38, 2); ("es", 40, 2); ("padding3", 42, 2);
         ("ds", 44, 2); ("padding4", 46, 2) ]%string
  /\ Layout.next_after Layout.trapframe "padding4" = Some "trapno"%string
  /\ Layout.next_after Layout.trapframe "trapno" = Some "err"%string
  /\ Layout.slots 60 64 Layout.trapframe
     = [ ("cs", 60, 2); ("padding5", 62, 2) ]%string
  /\ Layout.slots 72 76 Layout.trapframe
     = [ ("ss", 72, 2); ("padding6", 74, 2) ]%string
  /\ Layout.sizeof_struct Layout.trapframe = 76.
Proof. repeat split; reflexivity. Qed.

(** C2, as the claim words it: the register block pushed by [pusha] holds
    seven values.  It holds eight. *)
Lemma pusha_block_not_seven :
  List.length (Layout.block_of Layout.PushaRegs Layout.trapframe) <> 7%nat.
Proof. discriminate. Qed.

(** C2, amended: the register block at the start of the trap frame is
    eight 32-bit values in the order edi, esi, ebp, oesp, ebx, edx, ecx,
    eax at offsets 0 to 28; exactly one of them, [oesp], is ignored, which
    leaves seven meaningful registers. *)
Theorem pusha_block_eight :
  map (fun p => (Layout.p_name p, Layout.p_offset p,
                 CTypes.bits (Layout.f_type (Layout.p_field p))))
    (Layout.block_of Layout.PushaRegs Layout.trapframe)
  = [ ("edi", 0, 32); ("esi", 4, 32); ("ebp", 8, 32); ("oesp", 12, 32);
      ("ebx", 16, 32); ("edx", 20, 32); ("ecx", 24, 32);
      ("eax", 28, 32) ]%string
  /\ List.length (Layout.block_of Layout.PushaRegs Layout.trapframe) = 8%nat
  /\ map Layout.p_name
       (filter (fun p => Layout.f_ignored (Layout.p_field p))
          (Layout.layout Layout.trapframe))
     = [ "oesp"%string ]
  /\ List.length
       (filter (fun p => negb (Layout.f_ignored (Layout.p_field p)))
          (Layout.block_of Layout.PushaRegs Layout.trapframe)) = 7%nat
  /\ Layout.slots 0 32 Layout.trapframe
     = map (fun p => (Layout.p_name p, Layout.p_offset p, Layout.p_size p))
         (Layout.block_of Layout.PushaRegs Layout.trapframe).
Proof. repeat split; reflexivity. Qed.

(** C9: after the register block come exactly four 16-bit selectors, in
    the order gs, fs, es, ds, at offsets 32, 36, 40 and 44, each followed
    at once by a 16-bit padding member, so that each selector fills a
    32-bit slot. *)
Theorem selector_block_layout :
  Layout.slots 32 48 Layout.trapframe
  = [ ("gs", 32, 2); ("padding1", 34, 2); ("fs", 36, 2);
      ("padding2", 38, 2); ("es", 40, 2); ("padding3", 42, 2);
      ("ds", 44, 2); ("padding4", 46, 2) ]%string
  /\ map (fun n => Layout.offsetof Layout.trapframe n)
       [ "gs"; "fs"; "es"; "ds" ]%string
     = [ Some 32; Some 36; Some 40; Some 44 ]
  /\ map (fun n => Layout.next_after Layout.trapframe n)
       [ "eax"; "gs"; "fs"; "es"; "ds" ]%string
     = [ Some "gs"; Some "padding1"; Some "padding2";
         Some "padding3"; Some "padding4" ]%string
  /\ map (fun n => Layout.next_after Layout.trapframe n)
       [ "padding1"; "padding2"; "padding3"; "padding4" ]%string
     = [ Some "fs"; Some "es"; Some "ds"; Some "trapno" ]%string.
Proof. repeat split; reflexivity. Qed.

(** ** Properties of the instruction primitives *)

Section Primitives.
Import CTypes X86 X86Facts.

Lemma count_wraps cnt : 0 <= cnt <= INT_MAX -> wrap32 cnt = cnt.
Proof. unfold INT_MAX. intros H. apply wrap32_small. lia. Qed.

Lemma xchg_step addr newval m :
  snd (xchg addr newval m)
  = exec (LockXchgl addr) (upd EAX (wrap32 newval) m).
Proof. reflexivity. Qed.

Lemma outsl_loop port addr cnt m :
  outsl port addr cnt m
  = rep_loop (Z.to_nat (wrap32 cnt)) Outsl
      (exec Cld (load_operands [(EDX, port); (ESI, addr); (ECX, cnt)] m)).
Proof. reflexivity. Qed.

Lemma low16_of_wrap32 v : wrap32 v mod 2 ^ 16 = to_ushort v.
Proof.
  unfold wrap32. apply Z.mod_mod_divide. exists (2 ^ 16). reflexivity.
Qed.

End Primitives.

(** C3: for a size from 1 to 65536 and a 32-bit base [p], [lgdt] and
    [lidt] both build a six-byte record whose limit field is
    [(size - 1) mod 2^16], whose base-low field is [p & 0xFFFF] and whose
    base-high field is [(p >> 16) & 0xFFFF]. *)
Theorem descriptor_load_encoding (p size : Z) :
  1 <= size <= 65536 -> CTypes.is_uint p ->
  let fields :=
    [ (size - 1) mod 2 ^ 16; Z.land p 0xFFFF; Z.land (Z.shiftr p 16) 0xFFFF ]
  in
  (X86.lgdt_pd p size = fields
   /\ List.length (X86.pd_bytes (X86.lgdt_pd p size)) = 6%nat
   /\ map (fun i => X86.field16 i (X86.pd_bytes (X86.lgdt_pd p size)))
        [0; 1; 2]%nat = fields)
  /\ (X86.lidt_pd p size = fields
      /\ List.length (X86.pd_bytes (X86.lidt_pd p size)) = 6%nat
      /\ map (fun i => X86.field16 i (X86.pd_bytes (X86.lidt_pd p size)))
           [0; 1; 2]%nat = fields).
Proof.
  intros Hs Hp fields.
  assert (Hr : forall pd,
             pd = [ CTypes.to_ushort (CTypes.int_sub size 1);
                    CTypes.to_ushort (CTypes.to_uint p);
                    CTypes.to_ushort (Z.shiftr (CTypes.to_uint p) 16) ] ->
             pd = fields
             /\ List.length (X86.pd_bytes pd) = 6%nat
             /\ map (fun i => X86.field16 i (X86.pd_bytes pd)) [0; 1; 2]%nat
                = fields).
  { intros pd ->.
    destruct (X86Facts.pd_bytes_fields
                (CTypes.to_ushort (CTypes.int_sub size 1))
                (CTypes.to_ushort (CTypes.to_uint p))
                (CTypes.to_ushort (Z.shiftr (CTypes.to_uint p) 16)))
      as [Hl Hf]; try apply X86Facts.to_ushort_range.
    pose proof (X86Facts.pd_values p size Hs Hp) as Hv.
    split; [exact Hv | split; [exact Hl | rewrite Hf; exact Hv]]. }
  split; apply Hr; reflexivity.
Qed.

Lemma descriptor_load_encoding_witness :
  (1 <= 65536 <= 65536 /\ CTypes.is_uint 0x8010A000)
  /\ X86.lgdt_pd 0x8010A000 65536 = [ 0xFFFF; 0xA000; 0x8010 ]
  /\ X86.pd_bytes (X86.lidt_pd 0x8010A000 65536)
     = [ 0xFF; 0xFF; 0x00; 0xA0; 0x10; 0x80 ].
Proof.
  assert (H1 : 1 <= 65536 <= 65536) by lia.
  assert (H2 : CTypes.is_uint 0x8010A000) by (unfold CTypes.is_uint; lia).
  split; [split; assumption |].
  destruct (descriptor_load_encoding 0x8010A000 65536 H1 H2)
    as [[Hg _] _].
  split; [exact Hg | reflexivity].
Defined.

(** C4: for a count from 0 to [INT_MAX], after [stosb] every byte of
    [[addr, addr + count)] holds the fill byte and every other byte is
    unchanged; after [stosl] every double word of
    [[addr, addr + 4 * count)] holds the fill value, the count being in
    words, and every other byte is unchanged; with count 0 neither
    routine changes memory.  Addresses wrap at 4 GiB. *)
Theorem fill_primitives (m : X86.machine) (addr data count : Z) :
  0 <= count <= CTypes.INT_MAX ->
  ((forall j, 0 <= j < count ->
      X86.load8 (X86.mem (X86.stosb addr data count m)) (addr + j)
      = CTypes.to_uchar data)
   /\ (forall a,
         (forall j, 0 <= j < count -> a <> X86.wrap32 (addr + j)) ->
         X86.mem (X86.stosb addr data count m) a = X86.mem m a))
  /\ ((forall i, 0 <= i < count ->
         X86.load32 (X86.mem (X86.stosl addr data count m)) (addr + 4 * i)
         = CTypes.to_uint data)
      /\ (forall a,
            (forall j, 0 <= j < 4 * count -> a <> X86.wrap32 (addr + j)) ->
            X86.mem (X86.stosl addr data count m) a = X86.mem m a))
  /\ (forall a, X86.mem (X86.stosb addr data 0 m) a = X86.mem m a)
  /\ (forall a, X86.mem (X86.stosl addr data 0 m) a = X86.mem m a).
Proof.
  intros Hc. pose proof (count_wraps count Hc) as Hw.
  split; [split | split; [split | split]].
  - intros j Hj. apply X86Facts.stosb_filled. now rewrite Hw.
  - intros a Hout. apply X86Facts.stosb_frame. now rewrite Hw.
  - intros i Hi. apply X86Facts.stosl_filled. now rewrite Hw.
  - intros a Hout. apply X86Facts.stosl_frame. now rewrite Hw.
  - reflexivity.
  - reflexivity.
Qed.

Lemma fill_primitives_witness :
  0 <= 3 <= CTypes.INT_MAX
  /\ X86.load8 (X86.mem (X86.stosb 0x1000 0x41 3 X86.quiet)) (0x1000 + 2)
     = 0x41
  /\ X86.mem (X86.stosb 0x1000 0x41 3 X86.quiet) 0x1003
     = X86.mem X86.quiet 0x1003
  /\ X86.load32 (X86.mem (X86.stosl 0x1000 0x01020304 3 X86.quiet))
       (0x1000 + 4 * 2) = 0x01020304
  /\ X86.mem (X86.stosl 0x1000 0x01020304 3 X86.quiet) 0x100C
     = X86.mem X86.quiet 0x100C.
Proof.
  assert (H : 0 <= 3 <= CTypes.INT_MAX) by (unfold CTypes.INT_MAX; lia).
  split; [exact H |].
  destruct (fill_primitives X86.quiet 0x1000 0x41 3 H)
    as [[Hb _] _].
  destruct (fill_primitives X86.quiet 0x1000 0x01020304 3 H)
    as [_ [[Hw _] _]].
  split; [apply (Hb 2); lia |].
  split; [reflexivity |].
  split; [apply (Hw 2); lia | reflexivity].
Defined.

(** C10: [stosb] stores only the low byte of its [int] argument: each
    destination byte receives [data mod 256], and the memory after
    [stosb(addr, data, cnt)] is the memory after
    [stosb(addr, data mod 256, cnt)], for every address and count. *)
Theorem stosb_truncates_data (m : X86.machine) (addr data cnt : Z) :
  (forall j, 0 <= j < X86.wrap32 cnt ->
     X86.load8 (X86.mem (X86.stosb addr data cnt m)) (addr + j)
     = data mod 256)
  /\ X86.mem (X86.stosb addr data cnt m)
     = X86.mem (X86.stosb addr (data mod 256) cnt m).
Proof.
  split.
  - intros j Hj. now apply X86Facts.stosb_filled.
  - rewrite !X86Facts.stosb_loop.
    apply X86Facts.rep_stosb_agree; try reflexivity.
    rewrite !X86Facts.AL_byte.
    change (X86.byte_of 0 (X86.wrap32 data)
            = X86.byte_of 0 (X86.wrap32 (data mod 256))).
    rewrite !X86Facts.byte0_to_uchar.
    unfold CTypes.to_uchar, CTypes.cast.
    change (2 ^ CTypes.bits CTypes.uchar) with 256.
    now rewrite Z.mod_mod by lia.
Qed.

(** C8: [outsl(port, addr, cnt)] sends the [cnt] double words found at
    [addr], [addr + 4], ... to the port, in that order, and changes no
    memory: the source range reads back as before, and so does every
    other byte. *)
Theorem outsl_reads_only (m : X86.machine) (port addr cnt : Z) :
  0 <= cnt <= CTypes.INT_MAX ->
  X86.port_log (X86.outsl port addr cnt m)
  = X86.port_log m
    ++ X86.words_from (X86.mem m) (CTypes.to_ushort port) addr (Z.to_nat cnt)
  /\ Z.of_nat (List.length
                 (X86.words_from (X86.mem m) (CTypes.to_ushort port) addr
                    (Z.to_nat cnt))) = cnt
  /\ (forall i, 0 <= i < cnt ->
        X86.load32 (X86.mem (X86.outsl port addr cnt m)) (addr + 4 * i)
        = X86.load32 (X86.mem m) (addr + 4 * i))
  /\ X86.mem (X86.outsl port addr cnt m) = X86.mem m.
Proof.
  intros Hc. pose proof (count_wraps cnt Hc) as Hw.
  unfold CTypes.INT_MAX in Hc.
  rewrite outsl_loop, Hw.
  destruct (X86Facts.rep_outsl (Z.to_nat cnt)
              (X86.exec X86.Cld
                 (X86.load_operands
                    [(X86.EDX, port); (X86.ESI, addr); (X86.ECX, cnt)] m)))
    as [Hmem Hlog].
  - change (X86.wrap32 cnt = Z.of_nat (Z.to_nat cnt)).
    rewrite Hw, Z2Nat.id; lia.
  - rewrite Z2Nat.id; lia.
  - apply X86Facts.cld_clears_DF.
  - split; [| split; [| split]].
    + rewrite Hlog, X86Facts.DX_low16.
      change (X86.port_log m
              ++ X86.words_from (X86.mem m) (X86.wrap32 port mod 2 ^ 16)
                   (X86.wrap32 addr) (Z.to_nat cnt)
              = X86.port_log m
                ++ X86.words_from (X86.mem m) (CTypes.to_ushort port) addr
                     (Z.to_nat cnt)).
      now rewrite low16_of_wrap32, X86Facts.words_from_wrap.
    + rewrite X86Facts.words_from_length, Z2Nat.id; lia.
    + intros i _. now rewrite Hmem.
    + exact Hmem.
Qed.

Lemma outsl_reads_only_witness :
  0 <= 2 <= CTypes.INT_MAX
  /\ X86.port_log (X86.outsl 0x1F0 0x2000 2 X86.quiet)
     = [ X86.OutL 0x1F0 0xA3A2A1A0; X86.OutL 0x1F0 0xA7A6A5A4 ]
  /\ X86.mem (X86.outsl 0x1F0 0x2000 2 X86.quiet) = X86.mem X86.quiet.
Proof.
  assert (H : 0 <= 2 <= CTypes.INT_MAX) by (unfold CTypes.INT_MAX; lia).
  split; [exact H |].
  destruct (outsl_reads_only X86.quiet 0x1F0 0x2000 2 H)
    as (Hlog & _ & _ & Hmem).
  split; [rewrite Hlog; reflexivity | exact Hmem].
Defined.

(** C6: [xchg(addr, newval)] returns the double word that was at [addr]
    before the call and leaves [newval] there, in one instruction; no
    byte outside the four of that location changes. *)
Theorem xchg_exchanges (m : X86.machine) (addr newval : Z) :
  CTypes.is_uint newval ->
  fst (X86.xchg addr newval m) = X86.load32 (X86.mem m) addr
  /\ X86.load32 (X86.mem (snd (X86.xchg addr newval m))) addr = newval
  /\ (forall a,
        (forall k, 0 <= k < 4 -> a <> X86.wrap32 (addr + k)) ->
        X86.mem (snd (X86.xchg addr newval m)) a = X86.mem m a)
  /\ snd (X86.xchg addr newval m)
     = X86.exec (X86.LockXchgl addr) (X86.upd X86.EAX newval m).
Proof.
  intros Hn.
  pose proof (X86Facts.wrap32_small newval Hn) as Hw.
  rewrite xchg_step, Hw.
  split; [reflexivity |].
  split; [| split; [| reflexivity]].
  - change (X86.load32 (X86.store32 (X86.mem m) addr newval) addr
            = newval).
    now rewrite X86Facts.load32_store32.
  - intros a Hout.
    change (X86.store32 (X86.mem m) addr newval a = X86.mem m a).
    now apply X86Facts.store32_other.
Qed.

Lemma xchg_exchanges_witness :
  CTypes.is_uint 1
  /\ fst (X86.xchg 0x3000 1 X86.quiet) = 0xF3F2F1F0
  /\ X86.load32 (X86.mem (snd (X86.xchg 0x3000 1 X86.quiet))) 0x3000 = 1.
Proof.
  assert (H : CTypes.is_uint 1) by (unfold CTypes.is_uint; lia).
  split; [exact H |].
  destruct (xchg_exchanges X86.quiet 0x3000 1 H) as (Hr & Hs & _).
  split; [rewrite Hr; reflexivity | exact Hs].
Defined.

(** C5, as the claim words it: after [cli(); sti()] the interrupt-enable
    bit that [readeflags] reports is the one it reported before.  With
    interrupts disabled at the start it is not. *)
Lemma cli_sti_does_not_restore :
  ~ (forall m : X86.machine,
       snd (X86.cli_then_sti m) = fst (X86.cli_then_sti m)).
Proof. intros H. specialize (H X86.quiet). discriminate H. Qed.

(** C5, amended: after [cli(); sti()] the interrupt-enable bit that
    [readeflags] reports is set, whatever it was before; it equals the
    value from before [cli] exactly when interrupts were enabled then. *)
Theorem cli_sti_enables (m : X86.machine) :
  snd (X86.cli_then_sti m) = true
  /\ fst (X86.cli_then_sti m) = X86.observed_IF m
  /\ (snd (X86.cli_then_sti m) = fst (X86.cli_then_sti m)
      <-> X86.observed_IF m = true).
Proof.
  assert (Hb : 0 <= X86.IF_bit < 16) by (unfold X86.IF_bit; lia).
  assert (H1 : fst (X86.cli_then_sti m) = X86.observed_IF m)
    by reflexivity.
  assert (H2 : snd (X86.cli_then_sti m) = true).
  { change (Z.testbit
              (fst (X86.readeflags
                      (X86.sti (X86.cli (snd (X86.readeflags m))))))
              X86.IF_bit = true).
    rewrite X86Facts.observed_bit by exact Hb.
    rewrite X86Facts.flags_after_cli_sti.
    apply Z.setbit_eq. unfold X86.IF_bit. lia. }
  split; [exact H2 |]. split; [exact H1 |].
  rewrite H1, H2. split; intros E; now rewrite E.
Qed.

(** ** More facts about the fill routines *)

Module FillFacts.
Import CTypes X86 X86Facts Range.

Lemma wrap32_sub_l a b : wrap32 (wrap32 a - b) = wrap32 (a - b).
Proof. unfold wrap32. apply Zminus_mod_idemp_l. Qed.

Lemma wrap32_add_r a b : wrap32 (a + wrap32 b) = wrap32 (a + b).
Proof. unfold wrap32. apply Zplus_mod_idemp_r. Qed.

Lemma wrap32_le z : 0 <= z -> wrap32 z <= z.
Proof. intros H. unfold wrap32. apply Z.mod_le; lia. Qed.

Lemma wrap32_mod4 z : wrap32 z mod 4 = z mod 4.
Proof.
  unfold wrap32. apply Z.mod_mod_divide. exists (2 ^ 30). reflexivity.
Qed.

Lemma covered_true addr n a :
  covered addr n a = true ->
  0 <= wrap32 (a - addr) < n /\ a = wrap32 (addr + wrap32 (a - addr)).
Proof.
  unfold covered. intros H.
  apply andb_true_iff in H as [H Hn]. apply andb_true_iff in H as [H0 H1].
  apply Z.leb_le in H0. apply Z.ltb_lt in H1. apply Z.ltb_lt in Hn.
  pose proof (wrap32_range (a - addr)). split; [lia |].
  rewrite wrap32_add_r. replace (addr + (a - addr)) with a by lia.
  symmetry. apply wrap32_small. lia.
Qed.

Lemma covered_false addr n a :
  covered addr n a = false ->
  forall j, 0 <= j < n -> a <> wrap32 (addr + j).
Proof.
  intros H j Hj E.
  assert (T : covered addr n a = true); [| congruence].
  pose proof (wrap32_range (addr + j)) as R.
  pose proof (wrap32_le j ltac:(lia)) as L.
  unfold covered. rewrite E, wrap32_sub_l.
  replace (addr + j - addr) with j by lia.
  apply andb_true_iff. split; [apply andb_true_iff; split |].
  - apply Z.leb_le. lia.
  - apply Z.ltb_lt. lia.
  - apply Z.ltb_lt. lia.
Qed.

(** The memory after [stosb], address by address. *)
Lemma stosb_closed m addr data cnt a :
  mem (stosb addr data cnt m) a
  = if covered addr (wrap32 cnt) a then to_uchar data else mem m a.
Proof.
  destruct (covered addr (wrap32 cnt) a) eqn:E.
  - apply covered_true in E as [Hj Ha]. rewrite Ha.
    exact (stosb_filled m addr data cnt _ Hj).
  - apply stosb_frame. now apply covered_false.
Qed.

Lemma stosl_bytes m addr data cnt i k :
  0 <= i < wrap32 cnt -> 0 <= k < 4 ->
  mem (stosl addr data cnt m) (wrap32 (addr + 4 * i + k)) = byte_of k data.
Proof.
  intros Hi Hk.
  destruct (fill_entry m addr data cnt) as (Hdi & Hcx & Hax & Hdf & _).
  destruct (fill_count cnt) as (Hn & Hlt).
  rewrite stosl_loop.
  rewrite <- (byte_of_wrap32 k data Hk), <- Hax.
  rewrite <- (wrap32_add_l3 addr), <- Hdi.
  apply (fill_inside Stosl eq_refl); auto; lia.
Qed.

(** The memory after [stosl], address by address. *)
Lemma stosl_closed m addr data cnt a :
  mem (stosl addr data cnt m) a
  = if covered addr (4 * wrap32 cnt) a
    then byte_of (wrap32 (a - addr) mod 4) data
    else mem m a.
Proof.
  destruct (covered addr (4 * wrap32 cnt) a) eqn:E.
  - apply covered_true in E as [Hj Ha].
    set (j := wrap32 (a - addr)) in *.
    pose proof (Z.div_mod j 4 ltac:(lia)) as D.
    pose proof (Z.mod_pos_bound j 4 ltac:(lia)) as B.
    rewrite Ha at 1. rewrite D at 1. rewrite Z.add_assoc.
    apply stosl_bytes; [| exact B].
    split; [apply Z.div_pos; lia | apply Z.div_lt_upper_bound; lia].
  - apply stosl_frame. now apply covered_false.
Qed.

Lemma byte_of_replicate4 b k :
  0 <= b < 256 -> 0 <= k < 4 -> byte_of k (replicate4 b) = b.
Proof.
  intros Hb Hk. unfold byte_of, replicate4.
  assert (Hc : k = 0 \/ k = 1 \/ k = 2 \/ k = 3) by lia.
  destruct Hc as [-> | [-> | [-> | ->]]].
  - change (2 ^ (8 * 0)) with 1. rewrite Z.div_1_r.
    symmetry. apply (Z.mod_unique _ _ (b + 2 ^ 8 * b + 2 ^ 16 * b)); lia.
  - change (2 ^ (8 * 1)) with 256.
    replace (b + 2 ^ 8 * b + 2 ^ 16 * b + 2 ^ 24 * b)
      with (b + (b + 2 ^ 8 * b + 2 ^ 16 * b) * 256) by lia.
    rewrite Z.div_add, (Z.div_small b) by lia.
    symmetry. apply (Z.mod_unique _ _ (b + 2 ^ 8 * b)); lia.
  - change (2 ^ (8 * 2)) with 65536.
    replace (b + 2 ^ 8 * b + 2 ^ 16 * b + 2 ^ 24 * b)
      with (b + 2 ^ 8 * b + (b + 2 ^ 8 * b) * 65536) by lia.
    rewrite Z.div_add, (Z.div_small (b + 2 ^ 8 * b)) by lia.
    symmetry. apply (Z.mod_unique _ _ b); lia.
  - change (2 ^ (8 * 3)) with 16777216.
    replace (b + 2 ^ 8 * b + 2 ^ 16 * b + 2 ^ 24 * b)
      with (b + 2 ^ 8 * b + 2 ^ 16 * b + b * 16777216) by lia.
    rewrite Z.div_add, (Z.div_small (b + 2 ^ 8 * b + 2 ^ 16 * b)) by lia.
    apply Z.mod_small. lia.
Qed.

(** A range of [n1 + n2] addresses is its first [n1] and the [n2] that
    follow, when the whole does not wrap onto itself. *)
Lemma covered_split addr n1 n2 a :
  0 <= n1 -> 0 <= n2 -> n1 + n2 <= 2 ^ 32 ->
  covered addr (n1 + n2) a
  = covered addr n1 a || covered (addr + n1) n2 a.
Proof.
  intros H1 H2 H. unfold covered.
  destruct ((0 <=? a) && (a <? 2 ^ 32)); [| reflexivity]. cbn [andb].
  replace (a - (addr + n1)) with (a - addr - n1) by lia.
  rewrite <- (wrap32_sub_l (a - addr) n1).
  pose proof (wrap32_range (a - addr)) as R.
  set (j := wrap32 (a - addr)) in *.
  destruct (Z_lt_ge_dec j n1) as [Lt | Ge].
  - replace (wrap32 (j - n1)) with (j - n1 + 2 ^ 32).
    + destruct (Z.ltb_spec j (n1 + n2)), (Z.ltb_spec j n1),
        (Z.ltb_spec (j - n1 + 2 ^ 32) n2); simpl; try reflexivity; lia.
    + symmetry. unfold wrap32.
      rewrite <- (Z_mod_plus_full (j - n1) 1 (2 ^ 32)).
      apply Z.mod_small. lia.
  - rewrite (wrap32_small (j - n1)) by lia.
    destruct (Z.ltb_spec j (n1 + n2)), (Z.ltb_spec j n1),
      (Z.ltb_spec (j - n1) n2); simpl; try reflexivity; lia.
Qed.

End FillFacts.

(** ** Registers after a repeated string instruction *)

Module StringFacts.
Import CTypes X86 X86Facts.

Lemma next_gdtr s m : gdtr (next s m) = gdtr m.
Proof. destruct s; reflexivity. Qed.

Lemma next_idtr s m : idtr (next s m) = idtr m.
Proof. destruct s; reflexivity. Qed.

Lemma next_port_log s m :
  is_store s = true -> port_log (next s m) = port_log m.
Proof. destruct s; try discriminate; reflexivity. Qed.

Lemma next_regs_other s m r :
  reg_eqb ECX r = false -> reg_eqb (pointer s) r = false ->
  regs (next s m) r = regs m r.
Proof. destruct s, r; try discriminate; reflexivity. Qed.

(** What [n] iterations leave behind, apart from memory and port output. *)
Lemma rep_loop_final n s : forall m p0,
  regs m ECX = Z.of_nat n -> Z.of_nat n < 2 ^ 32 ->
  flag DF_bit m = false -> regs m (pointer s) = wrap32 p0 ->
  regs (rep_loop n s m) ECX = 0
  /\ regs (rep_loop n s m) (pointer s) = wrap32 (p0 + width s * Z.of_nat n)
  /\ (forall r, reg_eqb ECX r = false -> reg_eqb (pointer s) r = false ->
        regs (rep_loop n s m) r = regs m r)
  /\ gdtr (rep_loop n s m) = gdtr m
  /\ idtr (rep_loop n s m) = idtr m
  /\ (is_store s = true -> port_log (rep_loop n s m) = port_log m).
Proof.
  induction n as [| n IH]; intros m p0 He Hn Hd Hp.
  - cbn [rep_loop]. rewrite Z.mul_0_r, Z.add_0_r. repeat split; auto.
  - rewrite rep_loop_next by lia.
    destruct (IH (next s m) (p0 + width s)) as (E & P & R & G & I & L).
    + rewrite next_ecx, He, wrap32_small; lia.
    + lia.
    + now rewrite next_flag.
    + now rewrite next_pointer, Hp, wrap32_add_l.
    + split; [exact E |]. split; [rewrite P; f_equal; lia |].
      split; [intros r H1 H2; rewrite R, next_regs_other; auto |].
      split; [now rewrite G, next_gdtr |].
      split; [now rewrite I, next_idtr |].
      intros Hs. now rewrite L, next_port_log.
Qed.

(** The state in which a fill routine returns, for either width. *)
Lemma fill_loop_final s m addr data cnt :
  is_store s = true ->
  let m' :=
    rep_loop (Z.to_nat (wrap32 cnt)) s
      (exec Cld (load_operands [(EDI, addr); (ECX, cnt); (EAX, data)] m)) in
  (regs m' ECX = 0
   /\ regs m' EDI = wrap32 (addr + width s * wrap32 cnt)
   /\ regs m' EAX = wrap32 data
   /\ flag DF_bit m' = false)
  /\ (regs m' EDX = regs m EDX
      /\ regs m' ESI = regs m ESI
      /\ regs m' ESP = regs m ESP)
  /\ (port_log m' = port_log m /\ gdtr m' = gdtr m /\ idtr m' = idtr m).
Proof.
  intros Hs m'.
  destruct (fill_entry m addr data cnt) as (Hdi & Hcx & Hax & Hdf & _).
  destruct (fill_count cnt) as (Hn & Hlt).
  assert (Hp : pointer s = EDI)
    by (destruct s; try discriminate; reflexivity).
  destruct (rep_loop_final (Z.to_nat (wrap32 cnt)) s _ addr Hcx Hlt Hdf)
    as (E & P & R & Gd & Id & L).
  - rewrite Hp. exact Hdi.
  - rewrite Hp in *. fold m' in E, P, R, Gd, Id, L.
    split; [| split].
    + split; [exact E |]. split; [rewrite P, Hn; reflexivity |].
      split; [rewrite R by reflexivity; exact Hax |].
      unfold flag. rewrite R by reflexivity. exact Hdf.
    + now rewrite !R by reflexivity.
    + split; [now rewrite L by exact Hs |].
      split; [now rewrite Gd | now rewrite Id].
Qed.

End StringFacts.

(** ** Further properties of the fill routines *)

(** X1: [stosb] and [stosl] return with ECX zero, EDI just past the
    filled range (the count taken as an unsigned 32-bit number), EAX
    holding the fill value and the direction flag clear; EDX, ESI and ESP
    are as before, nothing is written to a port and both descriptor-table
    registers are as before. *)
Theorem fill_final_state (m : X86.machine) (addr data cnt : Z) :
  let b := X86.stosb addr data cnt m in
  let l := X86.stosl addr data cnt m in
  ((X86.regs b X86.ECX = 0
    /\ X86.regs b X86.EDI = X86.wrap32 (addr + 1 * X86.wrap32 cnt)
    /\ X86.regs b X86.EAX = X86.wrap32 data
    /\ X86.flag X86.DF_bit b = false)
   /\ (X86.regs b X86.EDX = X86.regs m X86.EDX
       /\ X86.regs b X86.ESI = X86.regs m X86.ESI
       /\ X86.regs b X86.ESP = X86.regs m X86.ESP)
   /\ (X86.port_log b = X86.port_log m
       /\ X86.gdtr b = X86.gdtr m /\ X86.idtr b = X86.idtr m))
  /\ ((X86.regs l X86.ECX = 0
       /\ X86.regs l X86.EDI = X86.wrap32 (addr + 4 * X86.wrap32 cnt)
       /\ X86.regs l X86.EAX = X86.wrap32 data
       /\ X86.flag X86.DF_bit l = false)
      /\ (X86.regs l X86.EDX = X86.regs m X86.EDX
          /\ X86.regs l X86.ESI = X86.regs m X86.ESI
          /\ X86.regs l X86.ESP = X86.regs m X86.ESP)
      /\ (X86.port_log l = X86.port_log m
          /\ X86.gdtr l = X86.gdtr m /\ X86.idtr l = X86.idtr m)).
Proof.
  intros b l. split.
  - exact (StringFacts.fill_loop_final X86.Stosb m addr data cnt eq_refl).
  - exact (StringFacts.fill_loop_final X86.Stosl m addr data cnt eq_refl).
Qed.



(** X3: filling [n] words with a value whose four bytes are all [b]
    gives the memory that filling [4 * n] bytes with [b] gives: the word
    path and the byte path of a memory-set agree. *)
Theorem fill_paths_agree (m : X86.machine) (addr b v n : Z) :
  0 <= b < 256 -> 0 <= n -> 4 * n < 2 ^ 32 ->
  X86.wrap32 v = Range.replicate4 b ->
  forall a,
    X86.mem (X86.stosl addr v n m) a = X86.mem (X86.stosb addr b (4 * n) m) a.
Proof.
  intros Hb Hn Hlt Hv a.
  rewrite FillFacts.stosl_closed, FillFacts.stosb_closed.
  rewrite (X86Facts.wrap32_small n), (X86Facts.wrap32_small (4 * n)) by lia.
  destruct (Range.covered addr (4 * n) a); [| reflexivity].
  pose proof (Z.mod_pos_bound (X86.wrap32 (a - addr)) 4 ltac:(lia)) as K.
  rewrite <- (X86Facts.byte_of_wrap32 _ v K), Hv.
  rewrite FillFacts.byte_of_replicate4 by assumption.
  symmetry. apply Z.mod_small. exact Hb.
Qed.

Lemma fill_paths_agree_witness :
  (0 <= 0x5A < 256 /\ 0 <= 2 /\ 4 * 2 < 2 ^ 32
   /\ X86.wrap32 0x5A5A5A5A = Range.replicate4 0x5A)
  /\ X86.mem (X86.stosl 0x1000 0x5A5A5A5A 2 X86.quiet) 0x1007
     = X86.mem (X86.stosb 0x1000 0x5A (4 * 2) X86.quiet) 0x1007.
Proof.
  assert (H1 : 0 <= 0x5A < 256) by lia.
  assert (H2 : 0 <= 2) by lia.
  assert (H3 : 4 * 2 < 2 ^ 32) by lia.
  assert (H4 : X86.wrap32 0x5A5A5A5A = Range.replicate4 0x5A)
    by reflexivity.
  split; [repeat split; assumption |].
  exact (fill_paths_agree X86.quiet 0x1000 0x5A 0x5A5A5A5A 2 H1 H2 H3 H4
           0x1007).
Defined.

(** X4: fills compose.  Filling [n1] bytes and then the [n2] bytes that
    follow is filling [n1 + n2] bytes at once, and likewise for words; a
    second fill of the same range replaces the first. *)
Theorem fill_concat (m : X86.machine) (addr d d' n1 n2 : Z) :
  0 <= n1 -> 0 <= n2 -> 4 * (n1 + n2) <= 2 ^ 32 ->
  forall a,
    X86.mem (X86.stosb (addr + n1) d n2 (X86.stosb addr d n1 m)) a
    = X86.mem (X86.stosb addr d (n1 + n2) m) a
    /\ X86.mem (X86.stosl (addr + 4 * n1) d n2 (X86.stosl addr d n1 m)) a
       = X86.mem (X86.stosl addr d (n1 + n2) m) a
    /\ X86.mem (X86.stosb addr d' n1 (X86.stosb addr d n1 m)) a
       = X86.mem (X86.stosb addr d' n1 m) a.
Proof.
  intros H1 H2 H a.
  rewrite !FillFacts.stosb_closed, !FillFacts.stosl_closed.
  rewrite (X86Facts.wrap32_small n1), (X86Facts.wrap32_small n2),
    (X86Facts.wrap32_small (n1 + n2)) by lia.
  split; [| split].
  - rewrite FillFacts.covered_split by lia.
    destruct (Range.covered addr n1 a), (Range.covered (addr + n1) n2 a);
      reflexivity.
  - replace (4 * (n1 + n2)) with (4 * n1 + 4 * n2) by lia.
    rewrite FillFacts.covered_split by lia.
    replace (X86.wrap32 (a - (addr + 4 * n1)) mod 4)
      with (X86.wrap32 (a - addr) mod 4).
    + destruct (Range.covered addr (4 * n1) a),
        (Range.covered (addr + 4 * n1) (4 * n2) a); reflexivity.
    + rewrite !FillFacts.wrap32_mod4.
      replace (a - (addr + 4 * n1)) with (a - addr + - n1 * 4) by lia.
      now rewrite Z_mod_plus_full.
  - destruct (Range.covered addr n1 a); reflexivity.
Qed.

Lemma fill_concat_witness :
  (0 <= 2 /\ 0 <= 3 /\ 4 * (2 + 3) <= 2 ^ 32)
  /\ X86.mem (X86.stosb (0x1000 + 2) 7 3 (X86.stosb 0x1000 7 2 X86.quiet))
       0x1004
     = X86.mem (X86.stosb 0x1000 7 (2 + 3) X86.quiet) 0x1004.
Proof.
  assert (H1 : 0 <= 2) by lia.
  assert (H2 : 0 <= 3) by lia.
  assert (H3 : 4 * (2 + 3) <= 2 ^ 32) by lia.
  split; [repeat split; assumption |].
  exact (proj1 (fill_concat X86.quiet 0x1000 7 9 2 3 H1 H2 H3 0x1004)).
Defined.

(** ** Further properties of [xchg], [readeflags], [cli] and [sti] *)

Module WordFacts.
Import CTypes X86 X86Facts.

Lemma four_bytes_or_not addr a :
  (exists k, 0 <= k < 4 /\ a = wrap32 (addr + k))
  \/ (forall k, 0 <= k < 4 -> a <> wrap32 (addr + k)).
Proof.
  destruct (Z.eq_dec a (wrap32 (addr + 0)));
    [left; exists 0; split; [lia | assumption] |].
  destruct (Z.eq_dec a (wrap32 (addr + 1)));
    [left; exists 1; split; [lia | assumption] |].
  destruct (Z.eq_dec a (wrap32 (addr + 2)));
    [left; exists 2; split; [lia | assumption] |].
  destruct (Z.eq_dec a (wrap32 (addr + 3)));
    [left; exists 3; split; [lia | assumption] |].
  right. intros k Hk.
  assert (Hc : k = 0 \/ k = 1 \/ k = 2 \/ k = 3) by lia.
  destruct Hc as [-> | [-> | [-> | ->]]]; assumption.
Qed.

(** The bytes of a double word read from memory are the bytes that were
    there, when these are bytes. *)
Lemma byte_of_load32 f addr k :
  (forall i, 0 <= i < 4 -> 0 <= f (wrap32 (addr + i)) < 256) ->
  0 <= k < 4 ->
  byte_of k (load32 f addr) = f (wrap32 (addr + k)).
Proof.
  intros Hf Hk. unfold load32, load8.
  rewrite <- (Z.add_0_r addr) at 1.
  pose proof (Hf 0 ltac:(lia)) as B0. pose proof (Hf 1 ltac:(lia)) as B1.
  pose proof (Hf 2 ltac:(lia)) as B2. pose proof (Hf 3 ltac:(lia)) as B3.
  set (b0 := f (wrap32 (addr + 0))) in *.
  set (b1 := f (wrap32 (addr + 1))) in *.
  set (b2 := f (wrap32 (addr + 2))) in *.
  set (b3 := f (wrap32 (addr + 3))) in *.
  unfold byte_of.
  assert (Hc : k = 0 \/ k = 1 \/ k = 2 \/ k = 3) by lia.
  destruct Hc as [-> | [-> | [-> | ->]]].
  - change (2 ^ (8 * 0)) with 1. rewrite Z.div_1_r. fold b0.
    symmetry. apply (Z.mod_unique _ _ (b1 + 2 ^ 8 * b2 + 2 ^ 16 * b3)); lia.
  - change (2 ^ (8 * 1)) with 256. fold b1.
    replace (b0 + 2 ^ 8 * b1 + 2 ^ 16 * b2 + 2 ^ 24 * b3)
      with (b0 + (b1 + 2 ^ 8 * b2 + 2 ^ 16 * b3) * 256) by lia.
    rewrite Z.div_add, (Z.div_small b0) by lia.
    symmetry. apply (Z.mod_unique _ _ (b2 + 2 ^ 8 * b3)); lia.
  - change (2 ^ (8 * 2)) with 65536. fold b2.
    replace (b0 + 2 ^ 8 * b1 + 2 ^ 16 * b2 + 2 ^ 24 * b3)
      with (b0 + 2 ^ 8 * b1 + (b2 + 2 ^ 8 * b3) * 65536) by lia.
    rewrite Z.div_add, (Z.div_small (b0 + 2 ^ 8 * b1)) by lia.
    symmetry. apply (Z.mod_unique _ _ b3); lia.
  - change (2 ^ (8 * 3)) with 16777216. fold b3.
    replace (b0 + 2 ^ 8 * b1 + 2 ^ 16 * b2 + 2 ^ 24 * b3)
      with (b0 + 2 ^ 8 * b1 + 2 ^ 16 * b2 + b3 * 16777216) by lia.
    rewrite Z.div_add, (Z.div_small (b0 + 2 ^ 8 * b1 + 2 ^ 16 * b2)) by lia.
    apply Z.mod_small. lia.
Qed.


Lemma xchg_result addr v m : fst (xchg addr v m) = load32 (mem m) addr.
Proof. reflexivity. Qed.

Lemma xchg_mem addr v m :
  mem (snd (xchg addr v m)) = store32 (mem m) addr (wrap32 v).
Proof. reflexivity. Qed.




End WordFacts.

(** X5: two exchanges in a row on one location: the second returns the
    value the first stored, as a 32-bit number, and leaves its own there;
    bytes outside the location are as they were.  In particular a second
    [xchg(addr, 1)] returns 1. *)
Theorem xchg_chain (m : X86.machine) (addr v w : Z) :
  let m1 := snd (X86.xchg addr v m) in
  let m2 := snd (X86.xchg addr w m1) in
  fst (X86.xchg addr w m1) = X86.wrap32 v
  /\ X86.load32 (X86.mem m2) addr = X86.wrap32 w
  /\ (forall a,
        (forall k, 0 <= k < 4 -> a <> X86.wrap32 (addr + k)) ->
        X86.mem m2 a = X86.mem m a).
Proof.
  intros m1 m2. unfold m2, m1.
  rewrite WordFacts.xchg_result, !WordFacts.xchg_mem.
  split; [| split].
  - now rewrite X86Facts.load32_store32, X86Facts.wrap32_idem.
  - now rewrite X86Facts.load32_store32, X86Facts.wrap32_idem.
  - intros a Ha. now rewrite !X86Facts.store32_other.
Qed.

(** X6: exchanging a value in and then exchanging the returned value
    back restores memory byte for byte and returns the value that was
    put in, provided the location held bytes. *)
Theorem xchg_swap_back (m : X86.machine) (addr v : Z) :
  (forall k, 0 <= k < 4 ->
     0 <= X86.mem m (X86.wrap32 (addr + k)) < 256) ->
  let old := fst (X86.xchg addr v m) in
  let m1 := snd (X86.xchg addr v m) in
  fst (X86.xchg addr old m1) = X86.wrap32 v
  /\ forall a, X86.mem (snd (X86.xchg addr old m1)) a = X86.mem m a.
Proof.
  intros Hb old m1. unfold m1, old.
  rewrite !WordFacts.xchg_result, !WordFacts.xchg_mem.
  split; [now rewrite X86Facts.load32_store32, X86Facts.wrap32_idem |].
  intros a.
  destruct (WordFacts.four_bytes_or_not addr a) as [(k & Hk & ->) | Hn].
  - rewrite X86Facts.store32_byte, X86Facts.byte_of_wrap32 by exact Hk.
    now apply WordFacts.byte_of_load32.
  - now rewrite !X86Facts.store32_other.
Qed.

Lemma xchg_swap_back_witness :
  (forall k, 0 <= k < 4 ->
     0 <= X86.mem X86.quiet (X86.wrap32 (0x3000 + k)) < 256)
  /\ fst (X86.xchg 0x3000 (fst (X86.xchg 0x3000 1 X86.quiet))
            (snd (X86.xchg 0x3000 1 X86.quiet))) = X86.wrap32 1.
Proof.
  assert (H : forall k, 0 <= k < 4 ->
            0 <= X86.mem X86.quiet (X86.wrap32 (0x3000 + k)) < 256).
  { intros k Hk. cbn [X86.mem X86.quiet].
    pose proof (Z.mod_pos_bound (X86.wrap32 (0x3000 + k)) 251). lia. }
  split; [exact H |].
  exact (proj1 (xchg_swap_back X86.quiet 0x3000 1 H)).
Defined.



(** X8: [cli] and [sti] change the interrupt-enable bit and nothing
    else: every other flag bit, every other register and all of memory
    are as before.  After [cli] the bit reads clear, after [sti] it reads
    set, and of two in a row the second decides. *)
Theorem interrupt_flag_only (m : X86.machine) :
  (X86.observed_IF (X86.cli m) = false
   /\ X86.observed_IF (X86.sti m) = true
   /\ X86.observed_IF (X86.cli (X86.sti m)) = false
   /\ X86.observed_IF (X86.cli (X86.cli m)) = false)
  /\ (forall b, b <> X86.IF_bit ->
        Z.testbit (X86.regs (X86.cli m) X86.EFLAGS) b
        = Z.testbit (X86.regs m X86.EFLAGS) b
        /\ Z.testbit (X86.regs (X86.sti m) X86.EFLAGS) b
           = Z.testbit (X86.regs m X86.EFLAGS) b)
  /\ (forall r, r <> X86.EFLAGS ->
        X86.regs (X86.cli m) r = X86.regs m r
        /\ X86.regs (X86.sti m) r = X86.regs m r)
  /\ X86.mem (X86.cli m) = X86.mem m
  /\ X86.mem (X86.sti m) = X86.mem m.
Proof.
  assert (Hb : 0 <= X86.IF_bit < 16) by (unfold X86.IF_bit; lia).
  assert (Hc : forall x, X86.observed_IF (X86.cli x) = false).
  { intros x. unfold X86.observed_IF.
    rewrite X86Facts.observed_bit by exact Hb.
    change (X86.regs (X86.cli x) X86.EFLAGS)
      with (Z.clearbit (X86.regs x X86.EFLAGS) X86.IF_bit).
    apply Z.clearbit_eq. }
  split; [| split; [| split; [| split; reflexivity]]].
  - split; [apply Hc |]. split; [| split; apply Hc].
    unfold X86.observed_IF. rewrite X86Facts.observed_bit by exact Hb.
    change (X86.regs (X86.sti m) X86.EFLAGS)
      with (Z.setbit (X86.regs m X86.EFLAGS) X86.IF_bit).
    apply Z.setbit_eq. lia.
  - intros b Hne. split.
    + change (X86.regs (X86.cli m) X86.EFLAGS)
        with (Z.clearbit (X86.regs m X86.EFLAGS) X86.IF_bit).
      apply Z.clearbit_neq. congruence.
    + change (X86.regs (X86.sti m) X86.EFLAGS)
        with (Z.setbit (X86.regs m X86.EFLAGS) X86.IF_bit).
      apply Z.setbit_neq; [lia | congruence].
  - intros r Hr. destruct r; try congruence; split; reflexivity.
Qed.

(** ** Further properties of the descriptor-table loads *)

Module DescriptorFacts.
Import CTypes X86 X86Facts.

(** The limit that is stored, for any size whose predecessor is an
    [int]. *)
Lemma limit_mod size :
  is_int (size - 1) -> to_ushort (int_sub size 1) = (size - 1) mod 2 ^ 16.
Proof. intros H. now rewrite int_sub_small. Qed.

Lemma mod_period z k : (z + 65536 * k) mod 2 ^ 16 = z mod 2 ^ 16.
Proof.
  change (2 ^ 16) with 65536. rewrite (Z.mul_comm 65536).
  apply Z_mod_plus_full.
Qed.

End DescriptorFacts.



(** X10: the limit field has sixteen bits and the size is not checked:
    sizes that differ by a multiple of 65536 give the same record, so a
    size of 0 gives the limit 0xFFFF of a 65536-byte table and a size of
    65537 the limit 0 of a one-byte table. *)
Theorem descriptor_size_wraps (p size k : Z) :
  CTypes.is_int (size - 1) -> CTypes.is_int (size + 65536 * k - 1) ->
  X86.lgdt_pd p (size + 65536 * k) = X86.lgdt_pd p size
  /\ X86.lidt_pd p (size + 65536 * k) = X86.lidt_pd p size
  /\ nth 0 (X86.lgdt_pd p (size + 65536 * k)) 0 = (size - 1) mod 2 ^ 16.
Proof.
  intros H1 H2.
  assert (E : CTypes.to_ushort (CTypes.int_sub (size + 65536 * k) 1)
              = CTypes.to_ushort (CTypes.int_sub size 1)).
  { rewrite !DescriptorFacts.limit_mod by assumption.
    replace (size + 65536 * k - 1) with (size - 1 + 65536 * k) by lia.
    apply DescriptorFacts.mod_period. }
  unfold X86.lgdt_pd, X86.lidt_pd. rewrite E.
  split; [reflexivity |]. split; [reflexivity |].
  cbn [nth]. now apply DescriptorFacts.limit_mod.
Qed.

Lemma descriptor_size_wraps_witness :
  (CTypes.is_int (0 - 1) /\ CTypes.is_int (0 + 65536 * 1 - 1))
  /\ X86.lgdt_pd 0x80112000 (0 + 65536 * 1) = X86.lgdt_pd 0x80112000 0
  /\ nth 0 (X86.lgdt_pd 0x80112000 0) 0 = 0xFFFF.
Proof.
  assert (H1 : CTypes.is_int (0 - 1))
    by (unfold CTypes.is_int, CTypes.INT_MIN, CTypes.INT_MAX; lia).
  assert (H2 : CTypes.is_int (0 + 65536 * 1 - 1))
    by (unfold CTypes.is_int, CTypes.INT_MIN, CTypes.INT_MAX; lia).
  split; [split; assumption |].
  split; [| reflexivity].
  exact (proj1 (descriptor_size_wraps 0x80112000 0 1 H1 H2)).
Defined.

(** ** Further properties of the port routines *)

Module PortFacts.
Import CTypes X86 X86Facts PortIn.

Lemma words_from_app f p a x y :
  words_from f p a (x + y)
  = words_from f p a x ++ words_from f p (a + 4 * Z.of_nat x) y.
Proof.
  revert a. induction x as [| x IH]; intros a.
  - cbn [Nat.add]. change (Z.of_nat 0) with 0.
    now rewrite Z.mul_0_r, Z.add_0_r.
  - cbn [Nat.add]. rewrite !words_from_succ, IH. cbn [app].
    do 3 f_equal. lia.
Qed.

Lemma low16_wrap32 v : wrap32 v mod 2 ^ 16 = to_ushort v.
Proof.
  unfold wrap32. apply Z.mod_mod_divide. exists (2 ^ 16). reflexivity.
Qed.

(** What [outsl] sends, for any count. *)
Lemma outsl_log m port addr cnt :
  port_log (outsl port addr cnt m)
  = port_log m
    ++ words_from (mem m) (to_ushort port) addr (Z.to_nat (wrap32 cnt))
  /\ mem (outsl port addr cnt m) = mem m.
Proof.
  destruct (fill_count cnt) as (Hn & Hlt).
  change (outsl port addr cnt m)
    with (rep_loop (Z.to_nat (wrap32 cnt)) Outsl
            (exec Cld
               (load_operands [(EDX, port); (ESI, addr); (ECX, cnt)] m))).
  destruct (rep_outsl (Z.to_nat (wrap32 cnt))
              (exec Cld
                 (load_operands [(EDX, port); (ESI, addr); (ECX, cnt)] m)))
    as [Hmem Hlog].
  - symmetry. exact Hn.
  - exact Hlt.
  - apply cld_clears_DF.
  - split; [| exact Hmem].
    rewrite Hlog, DX_low16.
    change (port_log m
            ++ words_from (mem m) (wrap32 port mod 2 ^ 16) (wrap32 addr)
                 (Z.to_nat (wrap32 cnt))
            = port_log m
              ++ words_from (mem m) (to_ushort port) addr
                   (Z.to_nat (wrap32 cnt))).
    now rewrite low16_wrap32, words_from_wrap.
Qed.

(** *** One iteration of [rep insl] *)

Lemma rep_insl_next n io :
  regs (cpu io) ECX <> 0 ->
  rep_insl_loop (S n) io = rep_insl_loop n (next_in io).
Proof.
  intros H. cbn [rep_insl_loop].
  destruct (Z.eqb_spec (regs (cpu io) ECX) 0); [contradiction | reflexivity].
Qed.

Lemma rep_insl_stop n io :
  regs (cpu io) ECX = 0 -> rep_insl_loop n io = io.
Proof. intros H. destruct n; cbn [rep_insl_loop]; [| rewrite H]; reflexivity. Qed.

Lemma next_in_ecx io :
  regs (cpu (next_in io)) ECX = wrap32 (regs (cpu io) ECX - 1).
Proof. reflexivity. Qed.

Lemma next_in_flag b io : flag b (cpu (next_in io)) = flag b (cpu io).
Proof. reflexivity. Qed.

Lemma next_in_dx io : DX (cpu (next_in io)) = DX (cpu io).
Proof. reflexivity. Qed.

Lemma next_in_edi io :
  flag DF_bit (cpu io) = false ->
  regs (cpu (next_in io)) EDI = wrap32 (regs (cpu io) EDI + 4).
Proof.
  intros H.
  change (regs (cpu (next_in io)) EDI)
    with (wrap32 (if flag DF_bit (cpu io) then regs (cpu io) EDI - 4
                  else regs (cpu io) EDI + 4)).
  now rewrite H.
Qed.

Lemma next_in_mem io :
  mem (cpu (next_in io))
  = store32 (mem (cpu io)) (regs (cpu io) EDI)
      (wrap32 (device io (DX (cpu io)) (taken io (DX (cpu io))))).
Proof. reflexivity. Qed.

Lemma next_in_device io : device (next_in io) = device io.
Proof. reflexivity. Qed.

Lemma next_in_taken io p :
  taken (next_in io) p
  = if p =? DX (cpu io) then S (taken io p) else taken io p.
Proof. reflexivity. Qed.

Lemma next_in_port_log io :
  port_log (cpu (next_in io)) = port_log (cpu io).
Proof. reflexivity. Qed.

(** *** The whole loop *)

Lemma insl_outside n : forall io a,
  flag DF_bit (cpu io) = false ->
  (forall j, 0 <= j < 4 * Z.of_nat n ->
     a <> wrap32 (regs (cpu io) EDI + j)) ->
  mem (cpu (rep_insl_loop n io)) a = mem (cpu io) a.
Proof.
  induction n as [| n IH]; intros io a Hd Hout; [reflexivity |].
  destruct (Z.eq_dec (regs (cpu io) ECX) 0) as [Z0 | NZ];
    [now rewrite rep_insl_stop |].
  rewrite rep_insl_next by exact NZ.
  rewrite IH.
  - rewrite next_in_mem. apply store32_other.
    intros k Hk. apply Hout. lia.
  - now rewrite next_in_flag.
  - intros j Hj. rewrite next_in_edi, wrap32_add_l by exact Hd.
    rewrite <- Z.add_assoc. apply Hout. lia.
Qed.

Lemma insl_inside n : forall io i k,
  regs (cpu io) ECX = Z.of_nat n -> 4 * Z.of_nat n <= 2 ^ 32 ->
  flag DF_bit (cpu io) = false ->
  0 <= i < Z.of_nat n -> 0 <= k < 4 ->
  mem (cpu (rep_insl_loop n io)) (wrap32 (regs (cpu io) EDI + 4 * i + k))
  = byte_of k (pending io (DX (cpu io)) (Z.to_nat i)).
Proof.
  induction n as [| n IH]; intros io i k He Hn Hd Hi Hk; [lia |].
  rewrite rep_insl_next by lia.
  destruct (Z.eq_dec i 0) as [-> | Hi0].
  - rewrite insl_outside.
    + rewrite next_in_mem, Z.mul_0_r, Z.add_0_r.
      rewrite store32_byte by exact Hk.
      unfold pending. now rewrite Nat.add_0_r.
    + now rewrite next_in_flag.
    + intros j Hj. rewrite next_in_edi, wrap32_add_l by exact Hd.
      rewrite <- !Z.add_assoc. apply wrap32_apart; lia.
  - replace (wrap32 (regs (cpu io) EDI + 4 * i + k))
      with (wrap32 (regs (cpu (next_in io)) EDI + 4 * (i - 1) + k))
      by (rewrite next_in_edi, wrap32_add_l3 by exact Hd; f_equal; lia).
    rewrite IH; try lia.
    + unfold pending.
      rewrite next_in_device, next_in_dx, next_in_taken, Z.eqb_refl.
      do 3 f_equal. lia.
    + rewrite next_in_ecx, He, wrap32_small; lia.
    + now rewrite next_in_flag.
Qed.

Lemma insl_counts n : forall io,
  regs (cpu io) ECX = Z.of_nat n -> Z.of_nat n < 2 ^ 32 ->
  (forall p,
     taken (rep_insl_loop n io) p
     = if p =? DX (cpu io) then (taken io p + n)%nat else taken io p)
  /\ device (rep_insl_loop n io) = device io
  /\ port_log (cpu (rep_insl_loop n io)) = port_log (cpu io)
  /\ regs (cpu (rep_insl_loop n io)) ECX = 0.
Proof.
  induction n as [| n IH]; intros io He Hn.
  - cbn [rep_insl_loop]. repeat split; auto.
    intros p. destruct (p =? DX (cpu io)); [now rewrite Nat.add_0_r | easy].
  - rewrite rep_insl_next by lia.
    destruct (IH (next_in io)) as (T & D & L & E).
    + rewrite next_in_ecx, He, wrap32_small; lia.
    + lia.
    + split; [| split; [| split]].
      * intros p. rewrite T, next_in_dx, next_in_taken.
        destruct (p =? DX (cpu io)); lia.
      * now rewrite D.
      * now rewrite L.
      * exact E.
Qed.

(** What [insl] reads and where it puts it. *)
Lemma insl_spec (io : io_machine) (port addr cnt : Z) :
  0 <= cnt -> 4 * cnt <= 2 ^ 32 ->
  let io' := insl port addr cnt io in
  let p := to_ushort port in
  (forall i, 0 <= i < cnt ->
     load32 (mem (cpu io')) (addr + 4 * i)
     = pending io p (Z.to_nat i))
  /\ (forall a,
        (forall j, 0 <= j < 4 * cnt -> a <> wrap32 (addr + j)) ->
        mem (cpu io') a = mem (cpu io) a)
  /\ (taken io' p = (taken io p + Z.to_nat cnt)%nat
      /\ (forall q, q <> p -> taken io' q = taken io q)
      /\ device io' = device io)
  /\ port_log (cpu io') = port_log (cpu io).
Proof.
  intros Hc Hlt io' p.
  set (c0 := exec Cld
               (load_operands
                  [(EDX, port); (EDI, addr); (ECX, cnt)]
                  (cpu io))).
  set (io0 := with_cpu c0 io).
  assert (Hw : wrap32 cnt = cnt) by (apply wrap32_small; lia).
  assert (Hio : io' = rep_insl_loop (Z.to_nat cnt) io0).
  { unfold io'.
    change (insl port addr cnt io)
      with (rep_insl_loop (Z.to_nat (wrap32 cnt)) io0).
    now rewrite Hw. }
  assert (Hcx : regs (cpu io0) ECX = Z.of_nat (Z.to_nat cnt))
    by (rewrite Z2Nat.id by lia; exact Hw).
  assert (Hdf : flag DF_bit (cpu io0) = false)
    by apply cld_clears_DF.
  assert (Hdi : regs (cpu io0) EDI = wrap32 addr)
    by reflexivity.
  assert (Hdx : DX (cpu io0) = p).
  { rewrite DX_low16. apply low16_wrap32. }
  destruct (insl_counts (Z.to_nat cnt) io0 Hcx) as (T & D & L & _);
    [rewrite Z2Nat.id; lia |].
  rewrite Hio.
  split; [| split; [| split; [split; [| split] |]]].
  - intros i Hi.
    rewrite <- (wrap32_small (pending io p (Z.to_nat i)))
      by apply wrap32_range.
    apply load32_bytes. intros k Hk.
    rewrite <- (wrap32_add_l3 addr), <- Hdi.
    rewrite insl_inside; try assumption;
      rewrite ?Z2Nat.id by lia; try lia.
    now rewrite Hdx.
  - intros a Ha.
    rewrite insl_outside; [reflexivity | exact Hdf |].
    intros j Hj. rewrite Hdi, wrap32_add_l.
    apply Ha. rewrite Z2Nat.id in Hj; lia.
  - rewrite T, Hdx, Z.eqb_refl. reflexivity.
  - intros q Hq. rewrite T, Hdx.
    destruct (Z.eqb_spec q p); [contradiction | reflexivity].
  - rewrite D. reflexivity.
  - rewrite L. reflexivity.
Qed.

End PortFacts.

(** X11: [outsl] returns with ECX zero, ESI just past the words sent
    (the count taken as an unsigned 32-bit number), the direction flag
    clear and the other registers as before; the number of words sent is
    that unsigned count, so a negative [int] count sends [2^32 + cnt]
    words. *)
Theorem outsl_final_state (m : X86.machine) (port addr cnt : Z) :
  let m' := X86.outsl port addr cnt m in
  (X86.regs m' X86.ECX = 0
   /\ X86.regs m' X86.ESI = X86.wrap32 (addr + 4 * X86.wrap32 cnt)
   /\ X86.flag X86.DF_bit m' = false)
  /\ (X86.regs m' X86.EAX = X86.regs m X86.EAX
      /\ X86.regs m' X86.EDI = X86.regs m X86.EDI
      /\ X86.regs m' X86.ESP = X86.regs m X86.ESP
      /\ X86.gdtr m' = X86.gdtr m /\ X86.idtr m' = X86.idtr m)
  /\ Z.of_nat (List.length (X86.port_log m'))
     = Z.of_nat (List.length (X86.port_log m)) + X86.wrap32 cnt.
Proof.
  intros m'.
  destruct (X86Facts.fill_count cnt) as (Hn & Hlt).
  destruct (StringFacts.rep_loop_final (Z.to_nat (X86.wrap32 cnt)) X86.Outsl
              (X86.exec X86.Cld
                 (X86.load_operands
                    [(X86.EDX, port); (X86.ESI, addr); (X86.ECX, cnt)] m))
              addr)
    as (E & P & R & Gd & Id & _);
    [symmetry; exact Hn | exact Hlt | apply X86Facts.cld_clears_DF
    | reflexivity |].
  change (X86.pointer X86.Outsl) with X86.ESI in P, R.
  change (X86.width X86.Outsl) with 4 in P.
  change (X86.rep_loop (Z.to_nat (X86.wrap32 cnt)) X86.Outsl
            (X86.exec X86.Cld
               (X86.load_operands
                  [(X86.EDX, port); (X86.ESI, addr); (X86.ECX, cnt)] m)))
    with m' in E, P, R, Gd, Id.
  split; [split; [exact E | split] | split].
  - rewrite P, Hn. reflexivity.
  - unfold X86.flag. rewrite R by reflexivity. apply X86Facts.cld_clears_DF.
  - rewrite !R by reflexivity. rewrite Gd, Id. repeat split.
  - unfold m'.
    destruct (PortFacts.outsl_log m port addr cnt) as [-> _].
    rewrite length_app, X86Facts.words_from_length. lia.
Qed.

(** X12: port writes compose.  Sending [n1] words and then the [n2]
    words that follow them in memory puts on the port what sending
    [n1 + n2] words at once does. *)
Theorem outsl_concat (m : X86.machine) (port addr n1 n2 : Z) :
  0 <= n1 -> 0 <= n2 -> n1 + n2 < 2 ^ 32 ->
  X86.port_log
    (X86.outsl port (addr + 4 * n1) n2 (X86.outsl port addr n1 m))
  = X86.port_log (X86.outsl port addr (n1 + n2) m).
Proof.
  intros H1 H2 H.
  destruct (PortFacts.outsl_log (X86.outsl port addr n1 m) port
              (addr + 4 * n1) n2) as [-> _].
  destruct (PortFacts.outsl_log m port addr n1) as [-> ->].
  destruct (PortFacts.outsl_log m port addr (n1 + n2)) as [-> _].
  rewrite !X86Facts.wrap32_small by lia.
  rewrite Z2Nat.inj_add, PortFacts.words_from_app by lia.
  rewrite Z2Nat.id by lia. now rewrite app_assoc.
Qed.

Lemma outsl_concat_witness :
  (0 <= 1 /\ 0 <= 2 /\ 1 + 2 < 2 ^ 32)
  /\ X86.port_log
       (X86.outsl 0x1F0 (0x2000 + 4 * 1) 2 (X86.outsl 0x1F0 0x2000 1 X86.quiet))
     = X86.port_log (X86.outsl 0x1F0 0x2000 (1 + 2) X86.quiet).
Proof.
  assert (H1 : 0 <= 1) by lia.
  assert (H2 : 0 <= 2) by lia.
  assert (H3 : 1 + 2 < 2 ^ 32) by lia.
  split; [tauto |].
  exact (outsl_concat X86.quiet 0x1F0 0x2000 1 2 H1 H2 H3).
Defined.

(** X13: [insl(port, addr, cnt)] takes the next [cnt] double words the
    port delivers and stores them, in order, at [addr], [addr + 4], ...;
    no other byte of memory changes, nothing is read from any other
    port, and nothing is written to a port.  The range must not wrap
    onto itself. *)
Theorem insl_reads (io : PortIn.io_machine) (port addr cnt : Z) :
  0 <= cnt -> 4 * cnt <= 2 ^ 32 ->
  let io' := PortIn.insl port addr cnt io in
  let p := CTypes.to_ushort port in
  (forall i, 0 <= i < cnt ->
     X86.load32 (X86.mem (PortIn.cpu io')) (addr + 4 * i)
     = PortIn.pending io p (Z.to_nat i))
  /\ (forall a,
        (forall j, 0 <= j < 4 * cnt -> a <> X86.wrap32 (addr + j)) ->
        X86.mem (PortIn.cpu io') a = X86.mem (PortIn.cpu io) a)
  /\ (PortIn.taken io' p = (PortIn.taken io p + Z.to_nat cnt)%nat
      /\ (forall q, q <> p -> PortIn.taken io' q = PortIn.taken io q)
      /\ PortIn.device io' = PortIn.device io)
  /\ X86.port_log (PortIn.cpu io') = X86.port_log (PortIn.cpu io).
Proof. exact (PortFacts.insl_spec io port addr cnt). Qed.

Lemma insl_reads_witness :
  (0 <= 2 /\ 4 * 2 <= 2 ^ 32)
  /\ X86.load32
       (X86.mem (PortIn.cpu (PortIn.insl 0x1F0 0x4000 2 PortIn.disk)))
       (0x4000 + 4 * 1) = 0x22222222.
Proof.
  assert (H1 : 0 <= 2) by lia.
  assert (H2 : 4 * 2 <= 2 ^ 32) by lia.
  split; [tauto |].
  destruct (insl_reads PortIn.disk 0x1F0 0x4000 2 H1 H2) as (Hr & _).
  rewrite (Hr 1) by lia. reflexivity.
Defined.

(** X14: what [insl] read, [outsl] writes back: after reading [cnt]
    double words to [addr], sending [cnt] double words from [addr] puts
    on the port exactly the words that were read, in the order they
    came. *)
Theorem insl_then_outsl (io : PortIn.io_machine) (port port' addr cnt : Z) :
  0 <= cnt -> 4 * cnt <= 2 ^ 32 ->
  X86.port_log
    (X86.outsl port' addr cnt (PortIn.cpu (PortIn.insl port addr cnt io)))
  = X86.port_log (PortIn.cpu io)
    ++ map (fun i =>
              X86.OutL (CTypes.to_ushort port')
                (PortIn.pending io (CTypes.to_ushort port) i))
         (seq 0 (Z.to_nat cnt)).
Proof.
  intros Hc Hlt.
  destruct (PortFacts.outsl_log
              (PortIn.cpu (PortIn.insl port addr cnt io)) port' addr cnt)
    as [-> _].
  destruct (PortFacts.insl_spec io port addr cnt Hc Hlt) as (Hr & _ & _ & L).
  rewrite L, X86Facts.wrap32_small by lia.
  f_equal. unfold X86.words_from. apply map_ext_in.
  intros i Hi. apply in_seq in Hi. f_equal.
  rewrite Hr by lia. now rewrite Nat2Z.id.
Qed.

Lemma insl_then_outsl_witness :
  (0 <= 2 /\ 4 * 2 <= 2 ^ 32)
  /\ X86.port_log
       (X86.outsl 0x170 0x4000 2
          (PortIn.cpu (PortIn.insl 0x1F0 0x4000 2 PortIn.disk)))
     = [ X86.OutL 0x170 0x11111111; X86.OutL 0x170 0x22222222 ].
Proof.
  assert (H1 : 0 <= 2) by lia.
  assert (H2 : 4 * 2 <= 2 ^ 32) by lia.
  split; [tauto |].
  rewrite (insl_then_outsl PortIn.disk 0x1F0 0x170 0x4000 2 H1 H2).
  reflexivity.
Defined.

(** ** A further property of the trap frame *)

(** X15: the layout rule adds no padding of its own to
    [struct trapframe]: each member starts where the one before it ends,
    the size of the frame, 76 bytes, is the sum of the sizes of its
    members, every member that is not a declared padding starts a 32-bit
    slot, and every declared padding is the upper half of one. *)
Theorem trapframe_no_hidden_padding :
  map Layout.p_offset (Layout.layout Layout.trapframe)
  = removelast (0 :: map Layout.p_end (Layout.layout Layout.trapframe))
  /\ Layout.sizeof_struct Layout.trapframe
     = fold_right Z.add 0
         (map (fun f => CTypes.sizeof (Layout.f_type f)) Layout.trapframe)
  /\ Layout.sizeof_struct Layout.trapframe = 76
  /\ forallb
       (fun p =>
          if String.prefix "padding" (Layout.p_name p)
          then (Layout.p_offset p mod 4 =? 2) && (Layout.p_size p =? 2)
          else Layout.p_offset p mod 4 =? 0)
       (Layout.layout Layout.trapframe) = true.
Proof. repeat split; reflexivity. Qed.
